(** * youtube_playlist_rearrange: a shallow embedding of the resumable
      playlist builder (main.py, youtube_api.py, gemini_logic.py)

    The development follows the three source files.  Remote services are
    taken as parameters (a world type with the calls the code makes on it),
    files are a finite map from path to content, and the dictionaries that
    json.load returns are mutated in place through their position in the
    loaded document. *)

From Stdlib Require Import ZArith Lia Ascii String.
From stdpp Require Import base list strings gmap.

#[local] Set Warnings "-register-all".
Local Open Scope string_scope.
Local Open Scope Z_scope.
Local Open Scope list_scope.

(** ** Python values read from and written to JSON files *)

Inductive json : Type :=
| JNull
| JBool (b : bool)
| JNum (n : Z)
| JStr (s : string)
| JArr (l : list json)
| JObj (kv : list (string * json)).

(** Python truth value of a loaded document: None, False, 0, the empty
    string, the empty list and the empty dict are false. *)
Definition truthy (j : json) : bool :=
  match j with
  | JNull => false
  | JBool b => b
  | JNum n => negb (n =? 0)
  | JStr s => negb (String.eqb s "")
  | JArr l => match l with [] => false | _ :: _ => true end
  | JObj kv => match kv with [] => false | _ :: _ => true end
  end.

(** [not x] *)
Definition py_not (j : json) : bool := negb (truthy j).

(** ** Strings: [str.lower] on ASCII text and the [in] substring test *)

Definition lower_ascii (a : ascii) : ascii :=
  let n := nat_of_ascii a in
  if ((65 <=? n)%nat && (n <=? 90)%nat)%bool then ascii_of_nat (n + 32) else a.

Fixpoint lower (s : string) : string :=
  match s with
  | EmptyString => EmptyString
  | String a s' => String (lower_ascii a) (lower s')
  end.

(** [needle in hay] *)
Fixpoint str_in (needle hay : string) : bool :=
  if String.prefix needle hay then true
  else match hay with
       | EmptyString => false
       | String _ hay' => str_in needle hay'
       end.

(** [sep.join(parts)] *)
Fixpoint join (sep : string) (parts : list string) : string :=
  match parts with
  | [] => ""
  | [p] => p
  | p :: rest => (p ++ sep ++ join sep rest)%string
  end.

(** ** The file system

    A path holds nothing, a complete JSON document, or a file that
    [open(path, 'w')] has truncated and whose new document has not been
    written out completely. *)

Inductive file : Type :=
| Torn
| Doc (j : json).

Abbreviation files := (gmap string file).

Definition STATE_FILE : string := "playlists_to_process.json".
Definition VIDEO_INFO_CACHE_FILE : string := "video_info_cache.json".
Definition CONFIG_FILE : string := "config.json".
Definition NUM_PLAYLISTS_TO_GENERATE : Z := 5.

(** [save_state] is [with open(file_path, 'w') as f: json.dump(data, f)]:
    the open truncates the file, then the document is written. *)
Definition open_w (file_path : string) (fs : files) : files :=
  <[file_path := Torn]> fs.

Definition json_dump (data : json) (file_path : string) (fs : files) : files :=
  <[file_path := Doc data]> fs.

Definition save_state_steps (data : json) (file_path : string)
  : list (files → files) :=
  [open_w file_path; json_dump data file_path].

Definition run_steps (steps : list (files → files)) (fs : files) : files :=
  foldl (λ acc step, step acc) fs steps.

Definition save_state (data : json) (file_path : string) (fs : files) : files :=
  run_steps (save_state_steps data file_path) fs.

(** A save that is interrupted after [n] of its steps. *)
Definition save_state_interrupted (n : nat) (data : json) (file_path : string)
    (fs : files) : files :=
  run_steps (take n (save_state_steps data file_path)) fs.

(** [load_state]: the parsed document, Python [None] (which is what JSON
    [null] parses to as well) when the file does not exist; json.load raises
    on a file that is not a complete document, and only FileNotFoundError is
    caught. *)
Inductive loaded : Type :=
| Loaded (j : json)
| JSONDecodeError.

Definition load_state (file_path : string) (fs : files) : loaded :=
  match fs !! file_path with
  | None => Loaded JNull
  | Some (Doc j) => Loaded j
  | Some Torn => JSONDecodeError
  end.

(** ** Errors raised by the remote service

    [googleapiclient.errors.HttpError]: the response status and the text
    that [str(e)] gives. *)

Record HttpError : Type := { resp_status : Z; str_e : string }.

Inductive api_result (A : Type) : Type :=
| Ok (a : A)
| Raises (e : HttpError).
Arguments Ok {A} a.
Arguments Raises {A} e.

(** [e.resp.status == 403 and 'quota' in str(e).lower()] *)
Definition is_quota (e : HttpError) : bool :=
  (resp_status e =? 403) && str_in "quota" (lower (str_e e)).

(** ** The Run State and the video cache, as the analysis phase writes them *)

Module Track.
Record t : Type := { index : Z; status : string }.
End Track.

Module Playlist.
Record t : Type := {
  playlist_title : string;
  playlist_description : string;
  status : string;
  tracks : list Track.t;
  youtube_playlist_id : option string
}.
End Playlist.

Module Video.
Record t : Type := { video_id : string; title : string; description : string }.
End Video.

Definition PENDING : string := "PENDING".
Definition COMPLETED : string := "COMPLETED".
Definition FAILED : string := "FAILED".
Definition SKIPPED : string := "SKIPPED".

(** *** The documents json.dump writes for them *)

Definition json_of_id (o : option string) : json :=
  match o with None => JNull | Some s => JStr s end.

Definition json_of_track (t : Track.t) : json :=
  JObj [("index", JNum (Track.index t)); ("status", JStr (Track.status t))].

Definition json_of_playlist (p : Playlist.t) : json :=
  JObj [("playlist_title", JStr (Playlist.playlist_title p));
        ("playlist_description", JStr (Playlist.playlist_description p));
        ("status", JStr (Playlist.status p));
        ("tracks", JArr (json_of_track <$> Playlist.tracks p));
        ("youtube_playlist_id", json_of_id (Playlist.youtube_playlist_id p))].

Definition json_of_state (ps : list Playlist.t) : json :=
  JObj [("playlists", JArr (json_of_playlist <$> ps))].

Definition json_of_video (v : Video.t) : json :=
  JObj [("video_id", JStr (Video.video_id v));
        ("title", JStr (Video.title v));
        ("description", JStr (Video.description v))].

Definition json_of_cache (vs : list Video.t) : json :=
  JArr (json_of_video <$> vs).

(** *** Reading them back

    The readers accept exactly the documents above; any other document is
    outside the model (see [IllShaped] below). *)

Definition keys_are (ks : list string) (kv : list (string * json)) : bool :=
  bool_decide (kv.*1 = ks).

Definition track_of_json (j : json) : option Track.t :=
  match j with
  | JObj ([(_, JNum i); (_, JStr s)] as kv) =>
      if keys_are ["index"; "status"] kv
      then Some {| Track.index := i; Track.status := s |} else None
  | _ => None
  end.

Definition id_of_json (j : json) : option (option string) :=
  match j with
  | JNull => Some None
  | JStr s => Some (Some s)
  | _ => None
  end.

Definition playlist_of_json (j : json) : option Playlist.t :=
  match j with
  | JObj ([(_, JStr ti); (_, JStr de); (_, JStr st); (_, JArr ts); (_, yid)] as kv) =>
      if keys_are ["playlist_title"; "playlist_description"; "status";
                   "tracks"; "youtube_playlist_id"] kv
      then ts' ← mapM track_of_json ts;
           yid' ← id_of_json yid;
           Some {| Playlist.playlist_title := ti;
                   Playlist.playlist_description := de;
                   Playlist.status := st;
                   Playlist.tracks := ts';
                   Playlist.youtube_playlist_id := yid' |}
      else None
  | _ => None
  end.

Definition state_of_json (j : json) : option (list Playlist.t) :=
  match j with
  | JObj ([(_, JArr ps)] as kv) =>
      if keys_are ["playlists"] kv then mapM playlist_of_json ps else None
  | _ => None
  end.

Definition video_of_json (j : json) : option Video.t :=
  match j with
  | JObj ([(_, JStr i); (_, JStr ti); (_, JStr de)] as kv) =>
      if keys_are ["video_id"; "title"; "description"] kv
      then Some {| Video.video_id := i; Video.title := ti; Video.description := de |}
      else None
  | _ => None
  end.

Definition cache_of_json (j : json) : option (list Video.t) :=
  match j with
  | JArr vs => mapM video_of_json vs
  | _ => None
  end.

(** ** What the program prints, and what it does to the remote service and
    to the loaded Run State

    Printed lines are kept as values, one constructor per [print] call of
    the source.  The trace records every remote write call with its result
    and every assignment into the loaded Run State; [i] is the position of
    the playlist dictionary in the document and [j] that of the track
    dictionary in its playlist, which is how the model names the objects
    that the Python code reaches through references. *)

Inductive message : Type :=
| MsgPhase2
| MsgFatalCannotResume
| MsgCreating (title : string)
| MsgQuotaCreating
| MsgCreateError (title : string) (e : HttpError)
| MsgProcessing (n : nat) (title : string)
| MsgAdded (track_id : string) (completed : nat)
| MsgQuotaAdding
| MsgAddError (track_id : string) (e : HttpError)
| MsgFullyComplete (title : string)
| MsgExecutionComplete
| MsgQuotaSaved (file_path : string)
| MsgFatalConfig
| MsgGeminiInitError (e : string)
| MsgFatalGeminiKey
| MsgGeminiEmpty
| MsgGeminiApiError (e : string)
| MsgPhase1
| MsgFatalGemini
| MsgAnalysisComplete (file_path : string).

Inductive event : Type :=
| CreateCall (i : nat) (title description : string) (r : api_result (option string))
| InsertCall (i j : nat) (playlist_id : option string) (video_id : string)
    (r : api_result ())
| SetPlaylistId (i : nat) (playlist_id : option string)
| SetTrackStatus (i j : nat) (s : string)
| SetPlaylistStatus (i : nat) (s : string).

(** *** Assignments into the loaded document *)

Definition with_track_status (s : string) (t : Track.t) : Track.t :=
  {| Track.index := Track.index t; Track.status := s |}.

Definition with_tracks (f : list Track.t → list Track.t) (p : Playlist.t)
  : Playlist.t :=
  {| Playlist.playlist_title := Playlist.playlist_title p;
     Playlist.playlist_description := Playlist.playlist_description p;
     Playlist.status := Playlist.status p;
     Playlist.tracks := f (Playlist.tracks p);
     Playlist.youtube_playlist_id := Playlist.youtube_playlist_id p |}.

Definition with_status (s : string) (p : Playlist.t) : Playlist.t :=
  {| Playlist.playlist_title := Playlist.playlist_title p;
     Playlist.playlist_description := Playlist.playlist_description p;
     Playlist.status := s;
     Playlist.tracks := Playlist.tracks p;
     Playlist.youtube_playlist_id := Playlist.youtube_playlist_id p |}.

Definition with_id (o : option string) (p : Playlist.t) : Playlist.t :=
  {| Playlist.playlist_title := Playlist.playlist_title p;
     Playlist.playlist_description := Playlist.playlist_description p;
     Playlist.status := Playlist.status p;
     Playlist.tracks := Playlist.tracks p;
     Playlist.youtube_playlist_id := o |}.

(** [playlists[i]['tracks'][j]['status'] = s] *)
Definition set_track_status (i j : nat) (s : string) (ps : list Playlist.t)
  : list Playlist.t :=
  alter (with_tracks (alter (with_track_status s) j)) i ps.

(** [playlists[i]['status'] = s] *)
Definition set_playlist_status (i : nat) (s : string) (ps : list Playlist.t)
  : list Playlist.t :=
  alter (with_status s) i ps.

(** [playlists[i]['youtube_playlist_id'] = o] *)
Definition set_playlist_id (i : nat) (o : option string) (ps : list Playlist.t)
  : list Playlist.t :=
  alter (with_id o) i ps.

(** The effect of one trace entry on a Run State; calls change nothing. *)
Definition apply_event (ps : list Playlist.t) (ev : event) : list Playlist.t :=
  match ev with
  | CreateCall _ _ _ _ => ps
  | InsertCall _ _ _ _ _ => ps
  | SetPlaylistId i o => set_playlist_id i o ps
  | SetTrackStatus i j s => set_track_status i j s ps
  | SetPlaylistStatus i s => set_playlist_status i s ps
  end.

Definition replay (evs : list event) (ps : list Playlist.t) : list Playlist.t :=
  foldl apply_event ps evs.

Definition is_call (ev : event) : bool :=
  match ev with
  | CreateCall _ _ _ _ | InsertCall _ _ _ _ _ => true
  | _ => false
  end.

(** The remote write calls of a trace. *)
Definition remote_calls (evs : list event) : list event := filter is_call evs.

(** A call that the service answered with a quota-exhaustion error. *)
Definition quota_failure (ev : event) : bool :=
  match ev with
  | CreateCall _ _ _ (Raises e) => is_quota e
  | InsertCall _ _ _ _ (Raises e) => is_quota e
  | _ => false
  end.

(** [not x] for [x] a string or None: [not playlist.get('youtube_playlist_id')],
    [not track_id], [not next_token] *)
Definition not_str (o : option string) : bool :=
  match o with
  | None => true
  | Some s => String.eqb s ""
  end.

(** [{i: v.get('video_id') for i, v in enumerate(complete_videos_info)}] *)
Definition index_to_video_id (complete_videos_info : list Video.t)
  : gmap Z string :=
  list_to_map (imap (λ i v, (Z.of_nat i, Video.video_id v)) complete_videos_info).

(** [[t for t in playlist['tracks'] if t['status'] == 'PENDING']], each
    track with the position of its dictionary. *)
Definition pending_tracks (ts : list Track.t) : list (nat * Track.t) :=
  filter (λ jt, Track.status jt.2 = PENDING) (imap pair ts).

(** [len([t for p in playlists for t in p['tracks'] if t['status'] == 'COMPLETED'])] *)
Definition count_completed (ps : list Playlist.t) : nat :=
  length (filter (λ t, Track.status t = COMPLETED) (ps ≫= Playlist.tracks)).

(** [all(t['status'] != 'PENDING' for t in tracks)] *)
Definition none_pending (ts : list Track.t) : bool :=
  forallb (λ t, negb (String.eqb (Track.status t) PENDING)) ts.

(** ** main.py: the execution phase *)

(** How a piece of the program ends: it falls through to the next
    statement, or [sys.exit(code)] was called. *)
Inductive flow (S : Type) : Type :=
| Next (s : S)
| Exit (code : Z) (s : S).
Arguments Next {S} s.
Arguments Exit {S} code s.

(** How the create step of a playlist ends ([continue] is the third way). *)
Inductive create_flow (S : Type) : Type :=
| Proceed (s : S)
| Continue (s : S)
| Quit (code : Z) (s : S).
Arguments Proceed {S} s.
Arguments Continue {S} s.
Arguments Quit {S} code s.

(** [sys.exit(arg)] and the builtin [exit(arg)] raise [SystemExit(arg)];
    the status of the process is the argument, and 0 when it is None, which
    is what a call without argument passes. *)
Definition exit_status (arg : option Z) : Z := default 0 arg.

(** How a run ends: the function returns, the process exits with a status,
    an exception that nothing catches ends it, the page loop of the
    collector has not ended within its fuel, or a document is not of the
    shape the model reads. *)
Inductive ending : Type :=
| Returned
| SysExit (code : Z)
| Uncaught
| Unfinished
| IllShaped.

Section Executor.
Context {W : Type}.

(** youtube_api.py: the two write calls, as functions of the state of the
    remote service. [create_playlist_on_youtube] returns
    [response.get('id')]. *)
Variable create_playlist_on_youtube :
  W → string → string → W * api_result (option string).
Variable add_video_to_playlist :
  W → option string → string → W * api_result ().

(** The state of a run: the remote service, the disk, the loaded
    [playlist_data], what was printed and the trace. *)
Record state : Type := {
  world : W;
  disk : files;
  playlist_data : list Playlist.t;
  stdout : list message;
  trace : list event
}.

Definition print (m : message) (s : state) : state :=
  {| world := world s; disk := disk s; playlist_data := playlist_data s;
     stdout := stdout s ++ [m]; trace := trace s |}.

Definition record (ev : event) (w : W) (s : state) : state :=
  {| world := w; disk := disk s; playlist_data := playlist_data s;
     stdout := stdout s; trace := trace s ++ [ev] |}.

(** An assignment into the loaded document, with its trace entry. *)
Definition assign (ev : event) (s : state) : state :=
  {| world := world s; disk := disk s;
     playlist_data := apply_event (playlist_data s) ev;
     stdout := stdout s; trace := trace s ++ [ev] |}.

Definition write_state (file_path : string) (s : state) : state :=
  {| world := world s;
     disk := save_state (json_of_state (playlist_data s)) file_path (disk s);
     playlist_data := playlist_data s;
     stdout := stdout s; trace := trace s |}.

(** [save_and_exit(playlist_data)]: the state it leaves and the status it
    passes to [sys.exit]. *)
Definition save_and_exit (s : state) : Z * state :=
  (exit_status (Some 0),
   print (MsgQuotaSaved STATE_FILE) (write_state STATE_FILE s)).

(** One iteration of [for track in pending_tracks]. *)
Definition track_step (ids : gmap Z string) (i : nat)
    (youtube_playlist_id : option string) (jt : nat * Track.t) (s : state)
  : flow state :=
  let '(j, track) := jt in
  let track_id := ids !! Track.index track in
  if not_str track_id then Next (assign (SetTrackStatus i j SKIPPED) s)
  else
    let vid := default "" track_id in
    let '(w, r) := add_video_to_playlist (world s) youtube_playlist_id vid in
    let s := record (InsertCall i j youtube_playlist_id vid r) w s in
    match r with
    | Ok _ =>
        let s := assign (SetTrackStatus i j COMPLETED) s in
        Next (print (MsgAdded vid (count_completed (playlist_data s))) s)
    | Raises e =>
        if is_quota e then
          let '(code, s) := save_and_exit (print MsgQuotaAdding s) in Exit code s
        else Next (assign (SetTrackStatus i j FAILED)
                     (print (MsgAddError vid e) s))
    end.

Fixpoint track_loop (ids : gmap Z string) (i : nat)
    (youtube_playlist_id : option string) (pending : list (nat * Track.t))
    (s : state) : flow state :=
  match pending with
  | [] => Next s
  | jt :: rest =>
      match track_step ids i youtube_playlist_id jt s with
      | Next s' => track_loop ids i youtube_playlist_id rest s'
      | Exit code s' => Exit code s'
      end
  end.

(** Step 1 of the loop body: create the playlist if its id is missing. *)
Definition create_step (i : nat) (playlist : Playlist.t) (s : state)
  : create_flow state :=
  if not_str (Playlist.youtube_playlist_id playlist) then
    let s := print (MsgCreating (Playlist.playlist_title playlist)) s in
    let '(w, r) := create_playlist_on_youtube (world s)
                     (Playlist.playlist_title playlist)
                     (Playlist.playlist_description playlist) in
    let s := record (CreateCall i (Playlist.playlist_title playlist)
                       (Playlist.playlist_description playlist) r) w s in
    match r with
    | Ok playlist_id => Proceed (assign (SetPlaylistId i playlist_id) s)
    | Raises e =>
        if is_quota e then
          let '(code, s) := save_and_exit (print MsgQuotaCreating s) in Quit code s
        else Continue (print (MsgCreateError (Playlist.playlist_title playlist) e) s)
    end
  else Proceed s.

(** Step 2 and the completion check; the playlist dictionary is read
    again from the document, where step 1 may have stored the new id. *)
Definition tracks_step (ids : gmap Z string) (i : nat) (s : state)
  : flow state :=
  match playlist_data s !! i with
  | None => Next s
  | Some playlist =>
      let youtube_playlist_id := Playlist.youtube_playlist_id playlist in
      let pending := pending_tracks (Playlist.tracks playlist) in
      let s := print (MsgProcessing (length pending)
                        (Playlist.playlist_title playlist)) s in
      match track_loop ids i youtube_playlist_id pending s with
      | Exit code s' => Exit code s'
      | Next s' =>
          match playlist_data s' !! i with
          | None => Next s'
          | Some playlist' =>
              if none_pending (Playlist.tracks playlist') then
                Next (print (MsgFullyComplete (Playlist.playlist_title playlist'))
                        (assign (SetPlaylistStatus i COMPLETED) s'))
              else Next s'
          end
      end
  end.

(** The body of [for playlist in playlist_data.get('playlists', [])]. *)
Definition playlist_step (ids : gmap Z string) (i : nat) (s : state)
  : flow state :=
  match playlist_data s !! i with
  | None => Next s
  | Some playlist =>
      if String.eqb (Playlist.status playlist) COMPLETED then Next s
      else match create_step i playlist s with
           | Quit code s' => Exit code s'
           | Continue s' => Next s'
           | Proceed s' => tracks_step ids i s'
           end
  end.

Fixpoint playlist_loop (ids : gmap Z string) (positions : list nat)
    (s : state) : flow state :=
  match positions with
  | [] => Next s
  | i :: rest =>
      match playlist_step ids i s with
      | Next s' => playlist_loop ids rest s'
      | Exit code s' => Exit code s'
      end
  end.

Record run : Type := { how : ending; final : state }.

(** [run_execution_phase(youtube_client)].  [Uncaught] is json.load
    raising on a torn file.  [IllShaped] stands for a state or cache
    document that is true as a Python value but is not one that the
    analysis phase writes; the model says nothing about such a run. *)
Definition run_execution_phase (w : W) (fs : files) : run :=
  let s := {| world := w; disk := fs; playlist_data := [];
              stdout := [MsgPhase2]; trace := [] |} in
  match load_state STATE_FILE fs with
  | JSONDecodeError => {| how := Uncaught; final := s |}
  | Loaded playlist_data =>
    match load_state VIDEO_INFO_CACHE_FILE fs with
    | JSONDecodeError => {| how := Uncaught; final := s |}
    | Loaded complete_videos_info =>
      if py_not playlist_data || py_not complete_videos_info then
        {| how := SysExit (exit_status (Some 1));
           final := print MsgFatalCannotResume s |}
      else
        match state_of_json playlist_data, cache_of_json complete_videos_info with
        | Some ps, Some vs =>
            let s := {| world := w; disk := fs; playlist_data := ps;
                        stdout := [MsgPhase2]; trace := [] |} in
            match playlist_loop (index_to_video_id vs) (seq 0 (length ps)) s with
            | Exit code s' => {| how := SysExit code; final := s' |}
            | Next s' =>
                {| how := Returned;
                   final := write_state STATE_FILE (print MsgExecutionComplete s') |}
            end
        | _, _ => {| how := IllShaped; final := s |}
        end
    end
  end.

(** Runs of the phase one after the other, each on the disk the one
    before left, each against the remote service in the state given for
    it. *)
Fixpoint later_runs (ws : list W) (fs : files) : list run :=
  match ws with
  | [] => []
  | w :: ws' =>
      let r := run_execution_phase w fs in
      r :: later_runs ws' (disk (final r))
  end.

End Executor.

Arguments state : clear implicits.
Arguments run : clear implicits.

(** The run that stops at the cannot-resume check of the execution phase:
    the fatal line, status 1, and nothing else done. *)
Definition cannot_resume {W : Type} (w : W) (fs : files) : run W :=
  {| how := SysExit 1;
     final := {| world := w; disk := fs; playlist_data := [];
                 stdout := [MsgPhase2; MsgFatalCannotResume]; trace := [] |} |}.

(** ** youtube_api.py: the collector *)

Definition BATCH_SIZE : nat := 50.

(** A page of [playlistItems().list]: the video ids of its items and the
    continuation token. *)
Record page : Type := { items : list string; nextPageToken : option string }.

(** An item of [videos().list]. *)
Record video_item : Type := {
  item_id : string;
  snippet_title : string;
  snippet_description : string
}.

Definition video_of_item (item : video_item) : Video.t :=
  {| Video.video_id := item_id item;
     Video.title := snippet_title item;
     Video.description := snippet_description item |}.

Section Collector.
(** The two read calls: the page for a playlist id and a page token, and
    the items for a comma-separated id string. *)
Variable playlistItems_list : string → option string → page.
Variable videos_list : string → list video_item.

(** The [while True] loop over the pages of one playlist.  The loop ends
    when the service stops handing out tokens; [fuel] bounds the number of
    requests, and [None] is a loop that has not ended within it. *)
Fixpoint page_loop (fuel : nat) (playlist_id : string)
    (next_token : option string) (all_track_ids : list string)
  : option (list string) :=
  match fuel with
  | O => None
  | S fuel' =>
      let response := playlistItems_list playlist_id next_token in
      let all_track_ids := (all_track_ids ++ items response)%list in
      let next_token := nextPageToken response in
      if not_str next_token then Some all_track_ids
      else page_loop fuel' playlist_id next_token all_track_ids
  end.

(** [for playlist_id in playlist_ids] *)
Fixpoint collect_loop (fuel : nat) (playlist_ids : list string)
    (all_track_ids : list string) : option (list string) :=
  match playlist_ids with
  | [] => Some all_track_ids
  | playlist_id :: rest =>
      all_track_ids ← page_loop fuel playlist_id None all_track_ids;
      collect_loop fuel rest all_track_ids
  end.

(** [fetch_all_playlist_track_ids]: [set(all_track_ids)]. *)
Definition fetch_all_playlist_track_ids (fuel : nat)
    (playlist_ids : list string) : option (gset string) :=
  all_track_ids ← collect_loop fuel playlist_ids [];
  Some (list_to_set all_track_ids).

(** The [while True] loop of [fetch_video_details_in_batches]:
    [id_iterator] is what the iterator has not yielded yet, [requests] the
    id strings sent so far.  The loop ends by itself on the empty batch;
    [fuel] is only there for the recursion. *)
Fixpoint batch_loop (fuel : nat) (id_iterator : list string)
    (requests : list string) (complete_videos_info : list Video.t)
  : list string * list Video.t :=
  match fuel with
  | O => (requests, complete_videos_info)
  | S fuel' =>
      let batch_of_ids := take BATCH_SIZE id_iterator in
      match batch_of_ids with
      | [] => (requests, complete_videos_info)
      | _ :: _ =>
          let tracks_id_string := join "," batch_of_ids in
          let response := videos_list tracks_id_string in
          let videos_info := video_of_item <$> response in
          batch_loop fuel' (drop BATCH_SIZE id_iterator)
            (requests ++ [tracks_id_string])%list
            (complete_videos_info ++ videos_info)%list
      end
  end.

(** The requests issued, in order, and the list returned. *)
Definition fetch_video_details_in_batches (video_ids : list string)
  : list string * list Video.t :=
  batch_loop (S (length video_ids)) video_ids [] [].

End Collector.

(** [list(unique_video_ids)]: the set iterated. *)
Definition list_of_set (unique_video_ids : gset string) : list string :=
  elements unique_video_ids.

(** The ids of a list in first-seen order, each once. *)
Fixpoint first_seen (l : list string) : list string :=
  match l with
  | [] => []
  | x :: l' => x :: filter (λ y, y ≠ x) (first_seen l')
  end.



(** ** gemini_logic.py *)

(** What [genai.Client()] does: it returns a client or raises. *)
Inductive client_init : Type :=
| ClientReady
| ClientRaises (e : string).

(** What [client.models.generate_content] does: it raises an APIError, or
    returns a response whose text is empty or None, or a text that
    [json.loads] parses to a document. *)
Inductive gemini_response : Type :=
| GApiError (e : string)
| GEmptyText
| GText (parsed : json).

(** A statement of a phase: it goes on with a value, or the run ends. *)
Inductive step (A : Type) : Type :=
| Done (a : A) (out : list message)
| Stop (e : ending) (out : list message).
Arguments Done {A} a out.
Arguments Stop {A} e out.

(** [get_gemini_client()] *)
Definition get_gemini_client (init : client_init) : step () :=
  match init with
  | ClientReady => Done () []
  | ClientRaises e =>
      Stop (SysExit (exit_status None)) [MsgGeminiInitError e; MsgFatalGeminiKey]
  end.

(** [generate_playlists_from_videos]: the parsed document, or None. *)
Definition generate_playlists_from_videos (response : gemini_response)
  : step json :=
  match response with
  | GText parsed => Done parsed []
  | GEmptyText => Done JNull [MsgGeminiEmpty]
  | GApiError e => Done JNull [MsgGeminiApiError e]
  end.

(** ** main.py: configuration, the analysis phase and [main] *)

(** [load_config()] *)
Definition load_config (fs : files) : step json :=
  match fs !! CONFIG_FILE with
  | None => Stop (SysExit (exit_status (Some 1))) [MsgFatalConfig]
  | Some Torn => Stop Uncaught []
  | Some (Doc config) => Done config []
  end.

(** [d[key]] on a loaded dictionary. *)
Fixpoint obj_get (key : string) (kv : list (string * json)) : option json :=
  match kv with
  | [] => None
  | (k, v) :: kv' => if String.eqb k key then Some v else obj_get key kv'
  end.

Definition str_of_json (j : json) : option string :=
  match j with JStr s => Some s | _ => None end.

Definition num_of_json (j : json) : option Z :=
  match j with JNum n => Some n | _ => None end.

(** [config["SOURCE_PLAYLIST_IDS"]], for a configuration that also has
    [config["YOUTUBE_SECRETS_FILE"]]. *)
Definition source_playlist_ids_of (config : json) : option (list string) :=
  match config with
  | JObj kv =>
      _ ← obj_get "YOUTUBE_SECRETS_FILE" kv;
      ids ← obj_get "SOURCE_PLAYLIST_IDS" kv;
      match ids with
      | JArr l => mapM str_of_json l
      | _ => None
      end
  | _ => None
  end.

(** A playlist of the model's answer, as the response schema has it. *)
Record suggestion : Type := {
  suggested_title : string;
  suggested_description : string;
  video_indices : list Z
}.

Definition suggestion_of_json (j : json) : option suggestion :=
  match j with
  | JObj ([(_, JStr ti); (_, JStr de); (_, JArr ix)] as kv) =>
      if keys_are ["playlist_title"; "playlist_description"; "video_indices"] kv
      then ix' ← mapM num_of_json ix;
           Some {| suggested_title := ti; suggested_description := de;
                   video_indices := ix' |}
      else None
  | _ => None
  end.

Definition suggestions_of_json (j : json) : option (list suggestion) :=
  match j with
  | JObj ([(_, JArr ps)] as kv) =>
      if keys_are ["playlists"] kv then mapM suggestion_of_json ps else None
  | _ => None
  end.

(** Step 4 of the analysis phase, on one playlist: the status, the tracks
    that replace [video_indices], and the placeholder for the id. *)
Definition enrich (g : suggestion) : Playlist.t :=
  {| Playlist.playlist_title := suggested_title g;
     Playlist.playlist_description := suggested_description g;
     Playlist.status := PENDING;
     Playlist.tracks :=
       (λ idx, {| Track.index := idx; Track.status := PENDING |}) <$> video_indices g;
     Playlist.youtube_playlist_id := None |}.

Section Program.
Context {W : Type}.
Variable playlistItems_list : string → option string → page.
Variable videos_list : string → list video_item.
Variable generate_content : list Video.t → Z → gemini_response.
Variable create_playlist_on_youtube :
  W → string → string → W * api_result (option string).
Variable add_video_to_playlist :
  W → option string → string → W * api_result ().
Variable fuel : nat.

(** [run_analysis_phase]: the disk it leaves and how it ends.  The
    progress lines that youtube_api.py prints are left out. *)
Definition run_analysis_phase (source_playlist_ids : list string)
    (fs : files) : files * step () :=
  match fetch_all_playlist_track_ids playlistItems_list fuel source_playlist_ids with
  | None => (fs, Stop Unfinished [MsgPhase1])
  | Some unique_video_ids =>
      let video_ids_list := list_of_set unique_video_ids in
      let complete_videos_info :=
        (fetch_video_details_in_batches videos_list video_ids_list).2 in
      let fs := save_state (json_of_cache complete_videos_info)
                  VIDEO_INFO_CACHE_FILE fs in
      match generate_playlists_from_videos
              (generate_content complete_videos_info NUM_PLAYLISTS_TO_GENERATE) with
      | Stop e out => (fs, Stop e (MsgPhase1 :: out))
      | Done playlist_data out =>
          if py_not playlist_data then
            (fs, Stop (SysExit (exit_status (Some 1)))
                   (MsgPhase1 :: out ++ [MsgFatalGemini]))
          else
            match suggestions_of_json playlist_data with
            | None => (fs, Stop IllShaped (MsgPhase1 :: out))
            | Some gs =>
                (save_state (json_of_state (enrich <$> gs)) STATE_FILE fs,
                 Done () (MsgPhase1 :: out ++ [MsgAnalysisComplete STATE_FILE]))
            end
      end
  end.

(** Output that came before a run of the execution phase. *)
Definition after (out : list message) (r : run W) : run W :=
  {| how := how r;
     final := {| world := world (final r); disk := disk (final r);
                 playlist_data := playlist_data (final r);
                 stdout := out ++ stdout (final r);
                 trace := trace (final r) |} |}.

Definition stopped (e : ending) (out : list message) (w : W) (fs : files)
  : run W :=
  {| how := e;
     final := {| world := w; disk := fs; playlist_data := [];
                 stdout := out; trace := [] |} |}.

(** [main()].  The OAuth flow and the construction of the YouTube client
    are taken to succeed.  [os.path.exists(STATE_FILE)] is true of a torn
    file as well. *)
Definition main (init : client_init) (w : W) (fs : files) : run W :=
  match load_config fs with
  | Stop e out => stopped e out w fs
  | Done config out0 =>
      match source_playlist_ids_of config with
      | None => stopped IllShaped out0 w fs
      | Some source_playlist_ids =>
          match get_gemini_client init with
          | Stop e out => stopped e (out0 ++ out) w fs
          | Done _ out1 =>
              if bool_decide (fs !! STATE_FILE = None) then
                match run_analysis_phase source_playlist_ids fs with
                | (fs', Stop e out) => stopped e (out0 ++ out1 ++ out) w fs'
                | (fs', Done _ out) =>
                    after (out0 ++ out1 ++ out)
                      (run_execution_phase create_playlist_on_youtube
                         add_video_to_playlist w fs')
                end
              else
                after (out0 ++ out1)
                  (run_execution_phase create_playlist_on_youtube
                     add_video_to_playlist w fs)
          end
      end
  end.

End Program.

(** ** Notions used to state the properties *)

(** The playlist an entry of the trace is about. *)
Definition event_playlist (ev : event) : nat :=
  match ev with
  | CreateCall i _ _ _ | InsertCall i _ _ _ _ | SetPlaylistId i _
  | SetTrackStatus i _ _ | SetPlaylistStatus i _ => i
  end.

(** The track dictionary at position [j] of playlist [i]. *)
Definition track_at (ps : list Playlist.t) (i j : nat) : option Track.t :=
  p ← ps !! i; Playlist.tracks p !! j.

(** The track an entry of the trace is about, for the entries that are
    about one: an insertion attempt or the assignment of a track status. *)
Definition event_track (ev : event) : option (nat * nat) :=
  match ev with
  | InsertCall i j _ _ _ | SetTrackStatus i j _ => Some (i, j)
  | _ => None
  end.

(** What has to hold of the Run State at the moment of a trace entry: a
    playlist is created only while it is not COMPLETED and has no id; an
    insertion is attempted, and a track status assigned, only for a PENDING
    track of a playlist that is not COMPLETED, and the status assigned is
    not PENDING; a playlist is set to COMPLETED only when none of its
    tracks is PENDING. *)
Definition allowed (ps : list Playlist.t) (ev : event) : Prop :=
  match ev with
  | CreateCall i title description _ =>
      ∃ p, ps !! i = Some p ∧ Playlist.status p ≠ COMPLETED
           ∧ not_str (Playlist.youtube_playlist_id p) = true
           ∧ title = Playlist.playlist_title p
           ∧ description = Playlist.playlist_description p
  | InsertCall i j playlist_id _ _ =>
      ∃ p t, ps !! i = Some p ∧ Playlist.status p ≠ COMPLETED
             ∧ Playlist.tracks p !! j = Some t ∧ Track.status t = PENDING
             ∧ playlist_id = Playlist.youtube_playlist_id p
  | SetPlaylistId i _ =>
      ∃ p, ps !! i = Some p ∧ Playlist.status p ≠ COMPLETED
           ∧ not_str (Playlist.youtube_playlist_id p) = true
  | SetTrackStatus i j s =>
      s ≠ PENDING
      ∧ ∃ p t, ps !! i = Some p ∧ Playlist.status p ≠ COMPLETED
               ∧ Playlist.tracks p !! j = Some t ∧ Track.status t = PENDING
  | SetPlaylistStatus i s =>
      s = COMPLETED
      ∧ ∃ p, ps !! i = Some p ∧ Playlist.status p ≠ COMPLETED
             ∧ none_pending (Playlist.tracks p) = true
  end.

Fixpoint allowed_trace (ps : list Playlist.t) (evs : list event) : Prop :=
  match evs with
  | [] => True
  | ev :: evs' => allowed ps ev ∧ allowed_trace (apply_event ps ev) evs'
  end.

(** A playlist that is COMPLETED has no PENDING track. *)
Definition completed_ok (p : Playlist.t) : Prop :=
  Playlist.status p = COMPLETED → none_pending (Playlist.tracks p) = true.

(** A playlist that has tracks and is not COMPLETED has a PENDING track;
    this holds of every playlist the analysis phase writes and of every
    playlist the execution phase leaves behind. *)
Definition unfinished_ok (p : Playlist.t) : Prop :=
  Playlist.status p = COMPLETED
  ∨ Playlist.tracks p = []
  ∨ none_pending (Playlist.tracks p) = false.

Definition flow_state {S : Type} (f : flow S) : S :=
  match f with Next s | Exit _ s => s end.

(** What a stretch of the execution phase guarantees, when it starts in
    [s], ends as [f] says and adds [evs] to the trace, all of them about
    playlists at [positions]: the loaded Run State is the old one with the
    assignments of [evs] made, every entry was allowed when it happened, the
    disk is written only by the save of a quota exit, that exit has status
    0, and the quota failure is the last thing that happened. *)
Definition stretch {W : Type} (positions : list nat) (s : state W)
    (f : flow (state W)) (evs : list event) : Prop :=
  let s' := flow_state f in
  trace s' = trace s ++ evs
  ∧ playlist_data s' = replay evs (playlist_data s)
  ∧ allowed_trace (playlist_data s) evs
  ∧ Forall (λ ev, event_playlist ev ∈ positions) evs
  ∧ match f with
    | Next _ =>
        disk s' = disk s ∧ Forall (λ ev, quota_failure ev = false) evs
    | Exit code _ =>
        code = 0
        ∧ disk s' = save_state (json_of_state (playlist_data s')) STATE_FILE (disk s)
        ∧ ∃ evs0 ev, evs = evs0 ++ [ev] ∧ quota_failure ev = true
                     ∧ Forall (λ ev, quota_failure ev = false) evs0
    end.

(** ** A small instance, on which the statements below are exercised

    The remote service counts the write calls it has answered and refuses
    every call from the [limit]-th on with a quota error; it refuses to
    insert the video "gone" with a 404. *)
Module Example.
Definition quota_error : HttpError :=
  {| resp_status := 403;
     str_e := "The request cannot be completed because you have exceeded your Quota." |}.

Definition not_found : HttpError :=
  {| resp_status := 404; str_e := "Video not found." |}.

Definition create (limit : nat) (w : nat) (title description : string)
  : nat * api_result (option string) :=
  if (w <? limit)%nat then (S w, Ok (Some ("PL-" ++ title)%string))
  else (w, Raises quota_error).

Definition add (limit : nat) (w : nat) (playlist_id : option string)
    (video_id : string) : nat * api_result () :=
  if (w <? limit)%nat then
    (S w, if String.eqb video_id "gone" then Raises not_found else Ok ())
  else (w, Raises quota_error).

Definition videos : list Video.t :=
  [ {| Video.video_id := "v0"; Video.title := "So What"; Video.description := "" |};
    {| Video.video_id := "v1"; Video.title := "Paranoid"; Video.description := "" |};
    {| Video.video_id := "gone"; Video.title := "Lost"; Video.description := "" |} ].

Definition plan : list suggestion :=
  [ {| suggested_title := "Rock"; suggested_description := "Loud";
       video_indices := [1; 2] |};
    {| suggested_title := "Jazz"; suggested_description := "Cool";
       video_indices := [0; 7] |} ].

Definition playlists : list Playlist.t := enrich <$> plan.

Definition disk : files :=
  <[STATE_FILE := Doc (json_of_state playlists)]>
    (<[VIDEO_INFO_CACHE_FILE := Doc (json_of_cache videos)]> ∅).

(** A Run State with one playlist that has no track. *)
Definition empty_playlist : list Playlist.t :=
  enrich <$> [ {| suggested_title := "Empty"; suggested_description := "";
                  video_indices := [] |} ].

Definition disk_with_empty_playlist : files :=
  <[STATE_FILE := Doc (json_of_state empty_playlist)]>
    (<[VIDEO_INFO_CACHE_FILE := Doc (json_of_cache videos)]> ∅).
End Example.

(** Two source playlists with the same two videos in opposite orders, each
    on a single page, and a third one spread over two pages. *)
Module ExampleSource.
Definition playlistItems_list (playlist_id : string) (page_token : option string)
  : page :=
  if String.eqb playlist_id "P1" then
    {| items := ["a"; "b"]; nextPageToken := None |}
  else if String.eqb playlist_id "P2" then
    {| items := ["b"; "a"]; nextPageToken := None |}
  else
    match page_token with
    | None => {| items := ["c"; "a"]; nextPageToken := Some "2" |}
    | Some _ => {| items := ["c"; "d"]; nextPageToken := None |}
    end.
End ExampleSource.

(** A first run: the metadata service knows every id but "b", and the
    model answers with two playlists. *)
Module ExampleFirstRun.
Definition videos_list (tracks_id_string : string) : list video_item :=
  if String.eqb tracks_id_string "" then []
  else [ {| item_id := "a"; snippet_title := "A"; snippet_description := "" |};
         {| item_id := "c"; snippet_title := "C"; snippet_description := "" |} ].

Definition answer : json :=
  JObj [("playlists",
         JArr [ JObj [("playlist_title", JStr "One");
                      ("playlist_description", JStr "first");
                      ("video_indices", JArr [JNum 1; JNum 0])];
                JObj [("playlist_title", JStr "Two");
                      ("playlist_description", JStr "second");
                      ("video_indices", JArr [JNum 0])] ])].

Definition generate_content (video_data_list : list Video.t) (num_playlists : Z)
  : gemini_response :=
  match video_data_list with
  | [] => GEmptyText
  | _ :: _ => GText answer
  end.

Definition config : json :=
  JObj [("YOUTUBE_SECRETS_FILE", JStr "client_secret.json");
        ("SOURCE_PLAYLIST_IDS", JArr [JStr "P1"; JStr "P3"])].

Definition disk : files := <[CONFIG_FILE := Doc config]> ∅.

End ExampleFirstRun.

(** What a run never changes in a playlist: its title, its description and
    the video indices of its tracks, in order. *)
Definition skeleton (p : Playlist.t) : string * string * list Z :=
  (Playlist.playlist_title p, Playlist.playlist_description p,
   Track.index <$> Playlist.tracks p).

(** A playlist creation that the service refused, in a trace. *)
Definition refused_creation (ev : event) : bool :=
  match ev with
  | CreateCall _ _ _ (Raises _) => true
  | _ => false
  end.






(** The remote call an entry of the trace stands for, if it is one: the
    creation of the playlist at a position, or the insertion of the track
    at a position of a playlist. *)
Definition call_key (ev : event) : option (nat * option nat) :=
  match ev with
  | CreateCall i _ _ _ => Some (i, None)
  | InsertCall i j _ _ _ => Some (i, Some j)
  | _ => None
  end.

Definition calls_for (key : nat * option nat) (evs : list event) : list event :=
  filter (λ ev, call_key ev = Some key) evs.

(** Every call is made at most once, and only calls in [D] are made. *)
Definition calls_once (D : nat * option nat → Prop) (evs : list event) : Prop :=
  ∀ key, (length (calls_for key evs) ≤ 1)%nat
         ∧ (calls_for key evs ≠ [] → D key).

(** The entries of a trace come in the order of the playlists. *)
Definition in_playlist_order (evs : list event) : Prop :=
  ∀ k1 k2 ev1 ev2,
    (k1 ≤ k2)%nat → evs !! k1 = Some ev1 → evs !! k2 = Some ev2 →
    (event_playlist ev1 ≤ event_playlist ev2)%nat.

(** * Properties *)

(** ** Documents: what is written is read back *)

Lemma track_of_json_of_track t : track_of_json (json_of_track t) = Some t.
Proof. by destruct t. Qed.

Lemma playlist_of_json_of_playlist p :
  playlist_of_json (json_of_playlist p) = Some p.
Proof.
  destruct p as [ti de st ts yid]. cbn.
  rewrite (mapM_fmap_Some track_of_json json_of_track).
  - by destruct yid.
  - apply track_of_json_of_track.
Qed.

Lemma state_of_json_of_state ps : state_of_json (json_of_state ps) = Some ps.
Proof.
  cbn. apply (mapM_fmap_Some playlist_of_json json_of_playlist).
  apply playlist_of_json_of_playlist.
Qed.

Lemma video_of_json_of_video v : video_of_json (json_of_video v) = Some v.
Proof. by destruct v. Qed.

Lemma cache_of_json_of_cache vs : cache_of_json (json_of_cache vs) = Some vs.
Proof.
  cbn. apply (mapM_fmap_Some video_of_json json_of_video).
  apply video_of_json_of_video.
Qed.

Lemma truthy_json_of_cache vs :
  truthy (json_of_cache vs) = negb (bool_decide (vs = [])).
Proof. by destruct vs. Qed.

(** ** The state store *)

Lemma save_state_eq data file_path fs :
  save_state data file_path fs = <[file_path := Doc data]> fs.
Proof.
  unfold save_state, save_state_steps, run_steps, json_dump, open_w. simpl.
  apply insert_insert_eq.
Qed.

Lemma save_state_same data file_path (fs : files) :
  fs !! file_path = Some (Doc data) → save_state data file_path fs = fs.
Proof. intros H. rewrite save_state_eq. by apply insert_id. Qed.

(** C5, amended: [save_state] opens the location for writing, which
    truncates it, and then writes the new document.  A save that has not
    started leaves the disk as it was; a save interrupted after the open
    leaves a torn file at the location, which [load_state] cannot read; a
    save that runs to its end leaves exactly the new document there.  No
    other location is touched at any point. *)
Theorem save_state_truncates_then_writes data file_path (fs : files) :
  save_state_interrupted 0 data file_path fs = fs
  ∧ save_state_interrupted 1 data file_path fs !! file_path = Some Torn
  ∧ load_state file_path (save_state_interrupted 1 data file_path fs)
    = JSONDecodeError
  ∧ delete file_path (save_state_interrupted 1 data file_path fs)
    = delete file_path fs
  ∧ save_state data file_path fs !! file_path = Some (Doc data)
  ∧ delete file_path (save_state data file_path fs) = delete file_path fs.
Proof.
  rewrite save_state_eq.
  unfold save_state_interrupted, save_state_steps, run_steps, load_state, open_w.
  simpl. rewrite !lookup_insert_eq, !delete_insert_eq. done.
Qed.

(** C5 as stated fails: a previous valid snapshot at the state file is gone
    once a save has been interrupted between the open and the write. *)
Lemma save_state_interrupted_loses_snapshot :
  let old := json_of_state [] in
  let new := json_of_cache [] in
  let fs : files := {[ STATE_FILE := Doc old ]} in
  load_state STATE_FILE fs = Loaded old
  ∧ (1 < length (save_state_steps new STATE_FILE))%nat
  ∧ load_state STATE_FILE (save_state_interrupted 1 new STATE_FILE fs)
    ≠ Loaded old.
Proof.
  split; [|split].
  - unfold load_state. by rewrite lookup_singleton_eq.
  - simpl. lia.
  - unfold load_state, save_state_interrupted, save_state_steps, run_steps, open_w.
    simpl. by rewrite lookup_insert_eq.
Qed.

(** ** Fatal conditions at startup *)

(** C4, the path that breaks it: when [genai.Client()] raises,
    [get_gemini_client] prints its FATAL line and calls [exit()] without an
    argument, so the process ends with status 0. *)
Theorem get_gemini_client_failure_exits_0 e :
  get_gemini_client (ClientRaises e)
  = Stop (SysExit 0) [MsgGeminiInitError e; MsgFatalGeminiKey].
Proof. reflexivity. Qed.

(** The sibling paths pass 1 to [sys.exit]. *)
Lemma load_config_missing_exits_1 (fs : files) :
  fs !! CONFIG_FILE = None →
  load_config fs = Stop (SysExit 1) [MsgFatalConfig].
Proof. intros H. unfold load_config. by rewrite H. Qed.

Lemma state_files_are_distinct : STATE_FILE ≠ VIDEO_INFO_CACHE_FILE.
Proof. discriminate. Qed.

Section StartupProperties.
Context {W : Type}.
Variable playlistItems_list : string → option string → page.
Variable videos_list : string → list video_item.
Variable generate_content : list Video.t → Z → gemini_response.
Variable create_playlist_on_youtube :
  W → string → string → W * api_result (option string).
Variable add_video_to_playlist :
  W → option string → string → W * api_result ().

Local Abbreviation execute :=
  (run_execution_phase create_playlist_on_youtube add_video_to_playlist).
Local Abbreviation program :=
  (main playlistItems_list videos_list generate_content
     create_playlist_on_youtube add_video_to_playlist).


Lemma execute_falsy_document w (fs : files) file_path j :
  file_path = STATE_FILE ∨ file_path = VIDEO_INFO_CACHE_FILE →
  fs !! file_path = Some (Doc j) →
  truthy j = false →
  fs !! STATE_FILE ≠ Some Torn →
  fs !! VIDEO_INFO_CACHE_FILE ≠ Some Torn →
  execute w fs = cannot_resume w fs.
Proof.
  intros [-> | ->] Hf Hj Hs Hc; unfold run_execution_phase, load_state.
  - rewrite Hf. unfold py_not at 1. rewrite Hj.
    by destruct (fs !! VIDEO_INFO_CACHE_FILE) as [[|j2]|].
  - rewrite Hf. unfold py_not at 2. rewrite Hj.
    destruct (fs !! STATE_FILE) as [[|j1]|]; [done| |done].
    by rewrite orb_true_r.
Qed.


(** With a state file on disk, [main] goes straight to the execution
    phase: the collector and the planner are not run. *)
Lemma main_resumes_when_state_file_exists init w (fs : files) config ids fuel :
  fs !! CONFIG_FILE = Some (Doc config) →
  source_playlist_ids_of config = Some ids →
  get_gemini_client init = Done () [] →
  fs !! STATE_FILE ≠ None →
  program fuel init w fs = after [] (execute w fs).
Proof.
  intros Hc Hi Hg Hs. unfold main, load_config.
  rewrite Hc, Hi, Hg. by rewrite bool_decide_eq_false_2.
Qed.

(** The fatal paths of [main] that end with status 1, and the one that
    does not. *)
Lemma main_missing_config fuel init w (fs : files) :
  fs !! CONFIG_FILE = None →
  how (program fuel init w fs) = SysExit 1.
Proof. intros H. unfold main. by rewrite load_config_missing_exits_1. Qed.

Lemma main_gemini_init_failure fuel e w (fs : files) config ids :
  fs !! CONFIG_FILE = Some (Doc config) →
  source_playlist_ids_of config = Some ids →
  how (program fuel (ClientRaises e) w fs) = SysExit 0.
Proof. intros Hc Hi. unfold main, load_config. by rewrite Hc, Hi. Qed.

End StartupProperties.

(** ** Assignments and traces *)

Lemma replay_app evs1 evs2 ps :
  replay (evs1 ++ evs2) ps = replay evs2 (replay evs1 ps).
Proof. apply foldl_app. Qed.

Lemma allowed_trace_app evs1 evs2 ps :
  allowed_trace ps (evs1 ++ evs2)
  ↔ allowed_trace ps evs1 ∧ allowed_trace (replay evs1 ps) evs2.
Proof.
  revert ps. induction evs1 as [|ev evs1 IH]; intros ps; simpl.
  - tauto.
  - rewrite IH. unfold replay. simpl. tauto.
Qed.

Lemma length_apply_event ps ev : length (apply_event ps ev) = length ps.
Proof.
  destruct ev; simpl; try done;
    unfold set_playlist_id, set_track_status, set_playlist_status;
    apply length_alter.
Qed.

Lemma length_replay evs ps : length (replay evs ps) = length ps.
Proof.
  revert ps. induction evs as [|ev evs IH]; intros ps; [done|].
  unfold replay in *. simpl. by rewrite IH, length_apply_event.
Qed.

Lemma apply_event_other ps ev k :
  event_playlist ev ≠ k → apply_event ps ev !! k = ps !! k.
Proof.
  destruct ev; simpl; intros Hk; try done;
    unfold set_playlist_id, set_track_status, set_playlist_status;
    by rewrite list_lookup_alter_ne.
Qed.

Lemma replay_other evs ps k :
  Forall (λ ev, event_playlist ev ≠ k) evs → replay evs ps !! k = ps !! k.
Proof.
  revert ps. induction evs as [|ev evs IH]; intros ps Hall; [done|].
  inversion Hall; subst. unfold replay in *. simpl.
  by rewrite IH, apply_event_other.
Qed.

Lemma none_pending_true ts :
  none_pending ts = true
  ↔ ∀ j t, ts !! j = Some t → Track.status t ≠ PENDING.
Proof.
  unfold none_pending. rewrite forallb_forall. split.
  - intros H j t Hj Heq. specialize (H t). rewrite <- list_elem_of_In in H.
    rewrite Heq, String.eqb_refl in H. simpl in H.
    assert (false = true) by (apply H; by eapply list_elem_of_lookup_2).
    done.
  - intros H t [j Hj]%list_elem_of_In%list_elem_of_lookup.
    apply negb_true_iff, String.eqb_neq. by eapply H.
Qed.

Lemma none_pending_false ts j t :
  ts !! j = Some t → Track.status t = PENDING → none_pending ts = false.
Proof.
  intros Hj Ht. apply not_true_is_false. intros H.
  by eapply none_pending_true in H.
Qed.

Lemma pending_tracks_elem ts j t :
  (j, t) ∈ pending_tracks ts ↔ ts !! j = Some t ∧ Track.status t = PENDING.
Proof.
  unfold pending_tracks. rewrite list_elem_of_filter, elem_of_lookup_imap. simpl.
  split.
  - intros (Hst & j' & t' & [= -> ->] & Hj). done.
  - intros [Hj Hst]. eauto.
Qed.

Lemma pending_tracks_NoDup ts : NoDup (pending_tracks ts).*1.
Proof.
  unfold pending_tracks.
  eapply sublist_NoDup; [|apply fmap_sublist, sublist_filter].
  rewrite fmap_imap.
  rewrite (imap_ext _ (λ j _, j)) by done.
  rewrite (imap_seq_0 ts (λ j, j)), list_fmap_id. apply NoDup_seq.
Qed.

Lemma pending_tracks_fst ts j :
  j ∈ (pending_tracks ts).*1
  ↔ ∃ t, ts !! j = Some t ∧ Track.status t = PENDING.
Proof.
  rewrite list_elem_of_fmap. split.
  - intros ([j' t] & -> & Hin). exists t. by apply pending_tracks_elem.
  - intros (t & Hj). exists (j, t). split; [done|]. by apply pending_tracks_elem.
Qed.

Section ExecutorProperties.
Context {W : Type}.
Variable create_playlist_on_youtube :
  W → string → string → W * api_result (option string).
Variable add_video_to_playlist :
  W → option string → string → W * api_result ().

Local Abbreviation execute :=
  (run_execution_phase create_playlist_on_youtube add_video_to_playlist).
Local Abbreviation track_step' :=
  (track_step add_video_to_playlist).
Local Abbreviation track_loop' :=
  (track_loop add_video_to_playlist).
Local Abbreviation playlist_step' :=
  (playlist_step create_playlist_on_youtube add_video_to_playlist).
Local Abbreviation playlist_loop' :=
  (playlist_loop create_playlist_on_youtube add_video_to_playlist).

Implicit Types (s : state W) (f : flow (state W)).

Lemma stretch_refl positions s : stretch positions s (Next s) [].
Proof.
  unfold stretch. simpl. rewrite app_nil_r. repeat split; constructor.
Qed.

Lemma stretch_trans positions s s1 f evs1 evs2 :
  stretch positions s (Next s1) evs1 →
  stretch positions s1 f evs2 →
  stretch positions s f (evs1 ++ evs2).
Proof.
  intros (Ht1 & Hd1 & Ha1 & Hp1 & Hk1 & Hq1) (Ht2 & Hd2 & Ha2 & Hp2 & Hf2).
  simpl in *. unfold stretch.
  rewrite Ht2, Ht1, Hd2, Hd1, replay_app, app_assoc.
  repeat split; try done.
  - apply allowed_trace_app. by rewrite <- Hd1.
  - by apply Forall_app.
  - destruct f as [s2|code s2]; simpl in *.
    + destruct Hf2 as [Hk2 Hq2]. split; [congruence|by apply Forall_app].
    + destruct Hf2 as (Hc & Hk2 & evs0 & ev & -> & Hq & Hq0).
      split; [done|]. split; [by rewrite Hk2, Hd2, Hd1, Hk1|].
      exists (evs1 ++ evs0), ev. rewrite app_assoc.
      repeat split; [done|by apply Forall_app].
Qed.

Lemma stretch_mono positions positions' s f evs :
  positions ⊆ positions' →
  stretch positions s f evs → stretch positions' s f evs.
Proof.
  intros Hsub (Ht & Hd & Ha & Hp & Hf). repeat split; try done.
  eapply Forall_impl; [exact Hp|]. intros ev Hev. by apply Hsub.
Qed.

Lemma set_track_status_lookup ps i j st p :
  ps !! i = Some p →
  set_track_status i j st ps !! i
  = Some (with_tracks (alter (with_track_status st) j) p).
Proof.
  intros H. unfold set_track_status. by rewrite list_lookup_alter_eq, H.
Qed.

Ltac stretch_goals :=
  unfold stretch; simpl; rewrite <- ?app_assoc; simpl;
  repeat split; try done;
  lazymatch goal with
  | |- Forall _ _ => repeat constructor; try done; set_solver
  | |- ∃ evs0 ev, _ = evs0 ++ [ev] ∧ _ =>
      eexists [], _; repeat split; done
  | |- ∃ _, _ => try (by eauto 10)
  | |- _ => idtac
  end.

Lemma track_step_stretch ids i j t s p :
  playlist_data s !! i = Some p →
  Playlist.status p ≠ COMPLETED →
  Playlist.tracks p !! j = Some t →
  Track.status t = PENDING →
  let f := track_step' ids i (Playlist.youtube_playlist_id p) (j, t) s in
  ∃ evs, stretch [i] s f evs
    ∧ match f with
      | Next s' => ∃ st, st ≠ PENDING
                   ∧ playlist_data s' = set_track_status i j st (playlist_data s)
      | Exit _ s' => playlist_data s' = playlist_data s
      end.
Proof.
  intros Hp Hst Ht Hpend f. subst f. unfold track_step.
  destruct (not_str (ids !! Track.index t)) eqn:Hid.
  - exists [SetTrackStatus i j SKIPPED]. split; [stretch_goals|by exists SKIPPED].
  - destruct (add_video_to_playlist _ _ _) as [w [[]|e]] eqn:Hcall.
    + eexists [InsertCall i j _ _ _; SetTrackStatus i j COMPLETED].
      split; [stretch_goals|by exists COMPLETED].
    + destruct (is_quota e) eqn:Hq; simpl.
      * eexists [InsertCall i j _ _ _]. split; [stretch_goals|done].
      * eexists [InsertCall i j _ _ _; SetTrackStatus i j FAILED].
        split; [stretch_goals|by exists FAILED].
Qed.
(** The track loop, over PENDING tracks at distinct positions of a
    playlist that is not COMPLETED: when it runs to its end, every one of
    them has a status other than PENDING and nothing else has changed in
    the playlist. *)
Lemma track_loop_stretch ids i pending s p :
  playlist_data s !! i = Some p →
  Playlist.status p ≠ COMPLETED →
  NoDup pending.*1 →
  (∀ j t, (j, t) ∈ pending →
     Playlist.tracks p !! j = Some t ∧ Track.status t = PENDING) →
  let f := track_loop' ids i (Playlist.youtube_playlist_id p) pending s in
  ∃ evs, stretch [i] s f evs
    ∧ match f with
      | Next s' =>
          ∃ p', playlist_data s' !! i = Some p'
            ∧ Playlist.status p' = Playlist.status p
            ∧ Playlist.youtube_playlist_id p' = Playlist.youtube_playlist_id p
            ∧ Playlist.playlist_title p' = Playlist.playlist_title p
            ∧ (∀ j, j ∈ pending.*1 →
                 ∃ t', Playlist.tracks p' !! j = Some t'
                       ∧ Track.status t' ≠ PENDING)
            ∧ (∀ j, j ∉ pending.*1 →
                 Playlist.tracks p' !! j = Playlist.tracks p !! j)
      | Exit _ s' =>
          ∃ p', playlist_data s' !! i = Some p'
            ∧ none_pending (Playlist.tracks p') = false
      end.
Proof.
  revert s p. induction pending as [|[j t] rest IH]; intros s p Hp Hst Hnd Hall f.
  - exists []. split; [apply stretch_refl|]. exists p. set_solver.
  - subst f. cbn [track_loop].
    destruct (Hall j t) as [Ht Hpend]; [set_solver|].
    destruct (track_step_stretch ids i j t s p Hp Hst Ht Hpend) as (evs1 & Hs1 & Hd1).
    destruct (track_step' ids i _ (j, t) s) as [s1|code s1].
    2:{ exists evs1. split; [done|]. exists p. rewrite Hd1.
        split; [done|]. by eapply none_pending_false. }
    destruct Hd1 as (st & Hne & Hd1).
    apply NoDup_cons in Hnd as [Hj Hnd].
    set (p1 := with_tracks (alter (with_track_status st) j) p).
    assert (Hp1 : playlist_data s1 !! i = Some p1).
    { rewrite Hd1. by apply set_track_status_lookup. }
    destruct (IH s1 p1 Hp1 Hst Hnd) as (evs2 & Hs2 & Hd2).
    { intros j' t' Hin. destruct (Hall j' t') as [Ht' Hpend']; [set_solver|].
      split; [|done]. simpl.
      rewrite list_lookup_alter_ne; [done|].
      intros ->. apply Hj. apply list_elem_of_fmap. by exists (j', t'). }
    exists (evs1 ++ evs2). split; [by eapply stretch_trans|].
    change (Playlist.youtube_playlist_id p1) with (Playlist.youtube_playlist_id p) in *.
    destruct (track_loop' ids i _ rest s1) as [s2|code s2]; [|done].
    destruct Hd2 as (p' & Hp' & Hst' & Hid' & Hti' & Hres & Hoth).
    exists p'. repeat split; try done.
    + intros j' [->|Hin]%elem_of_cons; [|by apply Hres].
      rewrite Hoth by done. simpl. rewrite list_lookup_alter_eq, Ht. simpl.
      by eexists.
    + intros j' Hnin. apply not_elem_of_cons in Hnin as [Hne' Hnin].
      rewrite Hoth by done. simpl. by rewrite list_lookup_alter_ne.
Qed.


(** Step 1 of the loop body, on a playlist that is not COMPLETED. *)
Lemma create_step_stretch i s p :
  playlist_data s !! i = Some p →
  Playlist.status p ≠ COMPLETED →
  match create_step create_playlist_on_youtube i p s with
  | Proceed s1 =>
      ∃ evs, stretch [i] s (Next s1) evs
        ∧ ∃ p1, playlist_data s1 !! i = Some p1
            ∧ Playlist.status p1 = Playlist.status p
            ∧ Playlist.tracks p1 = Playlist.tracks p
  | Continue s1 =>
      ∃ evs, stretch [i] s (Next s1) evs
        ∧ playlist_data s1 = playlist_data s
        ∧ ∃ e, is_quota e = false
            ∧ evs = [CreateCall i (Playlist.playlist_title p)
                       (Playlist.playlist_description p) (Raises e)]
            ∧ stdout s1 = stdout s ++ [MsgCreating (Playlist.playlist_title p);
                                       MsgCreateError (Playlist.playlist_title p) e]
  | Quit code s1 =>
      ∃ evs, stretch [i] s (Exit code s1) evs
        ∧ playlist_data s1 = playlist_data s
  end.
Proof.
  intros Hp Hst. unfold create_step.
  destruct (not_str (Playlist.youtube_playlist_id p)) eqn:Hid.
  2:{ exists []. split; [apply stretch_refl|]. by exists p. }
  cbn [world print].
  destruct (create_playlist_on_youtube _ _ _) as [w [playlist_id|e]] eqn:Hcall.
  - eexists [CreateCall i _ _ _; SetPlaylistId i playlist_id].
    split; [stretch_goals|].
    exists (with_id playlist_id p). simpl.
    unfold set_playlist_id. by rewrite list_lookup_alter_eq, Hp.
  - destruct (is_quota e) eqn:Hq; simpl.
    + eexists [CreateCall i _ _ _]. split; [stretch_goals|done].
    + eexists [CreateCall i _ _ _]. split; [stretch_goals|].
      split; [done|]. exists e. repeat split; try done.
      by rewrite <- app_assoc.
Qed.

(** Step 2 and the completion check: when the track loop runs to its
    end the playlist is set to COMPLETED; when it is cut short by a quota
    error the playlist still has a PENDING track. *)
Lemma tracks_step_stretch ids i s p :
  playlist_data s !! i = Some p →
  Playlist.status p ≠ COMPLETED →
  let f := tracks_step add_video_to_playlist ids i s in
  ∃ evs, stretch [i] s f evs
    ∧ match f with
      | Next s' => ∃ p', playlist_data s' !! i = Some p'
                     ∧ Playlist.status p' = COMPLETED
      | Exit _ s' => ∃ p', playlist_data s' !! i = Some p'
                       ∧ none_pending (Playlist.tracks p') = false
      end.
Proof.
  intros Hp Hst f. subst f. unfold tracks_step. rewrite Hp.
  set (s0 := print _ s).
  destruct (track_loop_stretch ids i (pending_tracks (Playlist.tracks p)) s0 p)
    as (evs & Hs & Hd); try done.
  { apply pending_tracks_NoDup. }
  { intros j t. apply pending_tracks_elem. }
  destruct (track_loop' ids i _ _ s0) as [s1|code s1].
  2:{ by exists evs. }
  destruct Hd as (p' & Hp' & Hst' & _ & _ & Hres & Hoth).
  rewrite Hp'.
  assert (Hnone : none_pending (Playlist.tracks p') = true).
  { apply none_pending_true. intros j t Hj Hpend.
    destruct (decide (j ∈ (pending_tracks (Playlist.tracks p)).*1)) as [Hin|Hnin].
    - destruct (Hres j Hin) as (t' & Ht' & Hne). congruence.
    - rewrite Hoth in Hj by done. apply Hnin, pending_tracks_fst. eauto. }
  rewrite Hnone.
  exists (evs ++ [SetPlaylistStatus i COMPLETED]). split.
  - eapply stretch_trans; [exact Hs|]. stretch_goals.
    exists p'. split; [done|]. split; [congruence|done].
  - exists (with_status COMPLETED p'). split; [|done]. simpl.
    unfold set_playlist_status. by rewrite list_lookup_alter_eq, Hp'.
Qed.

Lemma stretch_frame positions s f evs k :
  stretch positions s f evs → k ∉ positions →
  playlist_data (flow_state f) !! k = playlist_data s !! k.
Proof.
  intros (_ & Hd & _ & Hp & _) Hk. rewrite Hd. apply replay_other.
  eapply Forall_impl; [exact Hp|]. intros ev Hev Heq. apply Hk. by rewrite <- Heq.
Qed.

Lemma stretch_length positions s f evs :
  stretch positions s f evs →
  length (playlist_data (flow_state f)) = length (playlist_data s).
Proof. intros (_ & Hd & _). rewrite Hd. apply length_replay. Qed.

Lemma stretch_unfinished_ok i s f evs :
  stretch [i] s f evs →
  (∀ p', playlist_data (flow_state f) !! i = Some p' → unfinished_ok p') →
  Forall unfinished_ok (playlist_data s) →
  Forall unfinished_ok (playlist_data (flow_state f)).
Proof.
  intros Hs Hi Hall. apply Forall_lookup. intros k p' Hk.
  destruct (decide (k = i)) as [->|Hne]; [by apply Hi|].
  rewrite (stretch_frame [i] s f evs k Hs) in Hk by set_solver.
  by eapply Forall_lookup_1.
Qed.

(** One iteration of the loop over the playlists. *)
Lemma playlist_step_stretch ids i s p :
  playlist_data s !! i = Some p →
  let f := playlist_step' ids i s in
  ∃ evs, stretch [i] s f evs
    ∧ match f with
      | Next s' =>
          (∃ p', playlist_data s' !! i = Some p'
                 ∧ Playlist.status p' = COMPLETED)
          ∨ (playlist_data s' = playlist_data s
             ∧ ∃ e, is_quota e = false
                 ∧ evs = [CreateCall i (Playlist.playlist_title p)
                            (Playlist.playlist_description p) (Raises e)])
      | Exit _ s' =>
          playlist_data s' = playlist_data s
          ∨ ∃ p', playlist_data s' !! i = Some p'
                  ∧ none_pending (Playlist.tracks p') = false
      end.
Proof.
  intros Hp f. subst f. unfold playlist_step. rewrite Hp.
  destruct (String.eqb_spec (Playlist.status p) COMPLETED) as [Hst|Hst].
  { exists []. split; [apply stretch_refl|]. left. by exists p. }
  pose proof (create_step_stretch i s p Hp Hst) as Hc.
  destruct (create_step create_playlist_on_youtube i p s) as [s1|s1|code s1].
  - destruct Hc as (evs1 & Hs1 & p1 & Hp1 & Hst1 & Htr1).
    destruct (tracks_step_stretch ids i s1 p1 Hp1) as (evs2 & Hs2 & Hd2);
      [congruence|].
    exists (evs1 ++ evs2). split; [by eapply stretch_trans|].
    destruct (tracks_step add_video_to_playlist ids i s1); [by left|by right].
  - destruct Hc as (evs1 & Hs1 & Hd1 & e & Hq & -> & _).
    eexists. split; [exact Hs1|]. right. eauto.
  - destruct Hc as (evs1 & Hs1 & Hd1). exists evs1. split; [done|by left].
Qed.

(** The loop over the playlists. *)
Lemma playlist_loop_stretch ids positions s :
  NoDup positions →
  (∀ i, i ∈ positions → is_Some (playlist_data s !! i)) →
  let f := playlist_loop' ids positions s in
  ∃ evs, stretch positions s f evs
    ∧ (Forall unfinished_ok (playlist_data s) →
       Forall unfinished_ok (playlist_data (flow_state f)))
    ∧ match f with
      | Next s' =>
          ∀ i, i ∈ positions →
            (∃ p', playlist_data s' !! i = Some p'
                   ∧ Playlist.status p' = COMPLETED)
            ∨ (∃ title description e, is_quota e = false
                 ∧ CreateCall i title description (Raises e) ∈ evs)
      | Exit _ _ => True
      end.
Proof.
  revert s. induction positions as [|i rest IH]; intros s Hnd Hsome f.
  - exists []. split; [apply stretch_refl|]. split; [done|]. set_solver.
  - subst f. cbn [playlist_loop].
    destruct (Hsome i) as [p Hp]; [set_solver|].
    destruct (playlist_step_stretch ids i s p Hp) as (evs1 & Hs1 & Hd1).
    apply NoDup_cons in Hnd as [Hi Hnd].
    assert (Hmono : [i] ⊆ i :: rest) by set_solver.
    destruct (playlist_step' ids i s) as [s1|code s1].
    2:{ exists evs1. split; [by eapply stretch_mono|]. split; [|done].
        simpl. intros Hall.
        apply (stretch_unfinished_ok i s _ evs1 Hs1); [|done]. simpl.
        intros p' Hp'. destruct Hd1 as [Hd1|(p'' & Hp'' & Hnone)].
        - rewrite Hd1 in Hp'.
          by eapply (Forall_lookup_1 unfinished_ok) in Hall.
        - right. right. congruence. }
    assert (Hu1 : Forall unfinished_ok (playlist_data s) →
                  Forall unfinished_ok (playlist_data s1)).
    { intros Hall. apply (stretch_unfinished_ok i s _ evs1 Hs1); [|done]. simpl.
      intros p' Hp'. destruct Hd1 as [(p'' & Hp'' & Hc)|(Hd1 & _)].
      - left. congruence.
      - rewrite Hd1 in Hp'. by eapply (Forall_lookup_1 unfinished_ok) in Hall. }
    destruct (IH s1 Hnd) as (evs2 & Hs2 & Hu2 & Hd2).
    { intros k Hk. apply lookup_lt_is_Some.
      pose proof (stretch_length [i] s (Next s1) evs1 Hs1) as Hlen.
      simpl in Hlen. rewrite Hlen.
      apply lookup_lt_is_Some, Hsome. set_solver. }
    exists (evs1 ++ evs2). split.
    { eapply stretch_trans; [by eapply stretch_mono|].
      eapply stretch_mono; [|exact Hs2]. set_solver. }
    split; [tauto|].
    destruct (playlist_loop' ids rest s1) as [s2|code s2]; [|done].
    intros k [->|Hk]%elem_of_cons.
    + destruct Hd1 as [Hc|(_ & e & Hq & ->)].
      * left. pose proof (stretch_frame rest s1 (Next s2) evs2 i Hs2 Hi) as Hfr.
        simpl in Hfr. by rewrite Hfr.
      * right. exists (Playlist.playlist_title p), (Playlist.playlist_description p), e.
        split; [done|]. set_solver.
    + destruct (Hd2 k Hk) as [Hc|(ti & de & e & Hq & Hin)]; [by left|].
      right. exists ti, de, e. split; [done|]. set_solver.
Qed.

(** A run of the phase on a state file and a cache file that the
    analysis phase wrote. *)
Lemma execute_resumed w (fs : files) ps vs :
  fs !! STATE_FILE = Some (Doc (json_of_state ps)) →
  fs !! VIDEO_INFO_CACHE_FILE = Some (Doc (json_of_cache vs)) →
  vs ≠ [] →
  let r := execute w fs in
  let evs := trace (final r) in
  playlist_data (final r) = replay evs ps
  ∧ allowed_trace ps evs
  ∧ disk (final r) = <[STATE_FILE := Doc (json_of_state (replay evs ps))]> fs
  ∧ (Forall unfinished_ok ps → Forall unfinished_ok (replay evs ps))
  ∧ ((how r = Returned
      ∧ Forall (λ ev, quota_failure ev = false) evs
      ∧ ∀ i, (i < length ps)%nat →
          (∃ p', replay evs ps !! i = Some p' ∧ Playlist.status p' = COMPLETED)
          ∨ (∃ title description e, is_quota e = false
               ∧ CreateCall i title description (Raises e) ∈ evs))
     ∨ (how r = SysExit 0
        ∧ ∃ evs0 ev, evs = evs0 ++ [ev] ∧ quota_failure ev = true
                     ∧ Forall (λ ev, quota_failure ev = false) evs0)).
Proof.
  intros Hs Hc Hvs r evs. subst evs r.
  unfold run_execution_phase, load_state. rewrite Hs, Hc.
  replace (py_not (json_of_state ps) || py_not (json_of_cache vs)) with false.
  2:{ destruct vs; done. }
  rewrite state_of_json_of_state, cache_of_json_of_cache.
  set (s0 := {| world := w; disk := fs; playlist_data := ps;
                stdout := [MsgPhase2]; trace := [] |}).
  destruct (playlist_loop_stretch (index_to_video_id vs) (seq 0 (length ps)) s0)
    as (evs & Hst & Hu & Hd).
  { apply NoDup_seq. }
  { intros i Hi. apply lookup_lt_is_Some. apply elem_of_seq in Hi. simpl. lia. }
  destruct Hst as (Ht & Hdata & Hal & _ & Hf).
  destruct (playlist_loop' _ _ s0) as [s1|code s1]; simpl in *.
  - destruct Hf as [Hdisk Hq]. subst evs. rewrite Hdisk.
    repeat split; try done.
    + by rewrite save_state_eq, Hdata.
    + by rewrite <- Hdata.
    + left. repeat split; try done. intros i Hi. rewrite <- Hdata.
      apply Hd. apply elem_of_seq. lia.
  - destruct Hf as (-> & Hdisk & Hq). subst evs. rewrite Hdisk.
    repeat split; try done.
    + by rewrite save_state_eq, Hdata.
    + by rewrite <- Hdata.
    + by right.
Qed.

Lemma execute_empty_cache w (fs : files) ps :
  fs !! STATE_FILE = Some (Doc (json_of_state ps)) →
  fs !! VIDEO_INFO_CACHE_FILE = Some (Doc (json_of_cache [])) →
  execute w fs = cannot_resume w fs.
Proof.
  intros Hs Hc.
  apply (execute_falsy_document _ _ w fs VIDEO_INFO_CACHE_FILE (json_of_cache []));
    try done; [by right|congruence|congruence].
Qed.

(** *** What the trace of allowed entries leaves alone *)

Lemma allowed_open ps ev :
  allowed ps ev →
  ∃ p, ps !! event_playlist ev = Some p ∧ Playlist.status p ≠ COMPLETED.
Proof. destruct ev; simpl; naive_solver. Qed.

(** A COMPLETED playlist is skipped: no entry is about it and it stays
    as it is. *)
Lemma completed_untouched evs ps i p :
  ps !! i = Some p → Playlist.status p = COMPLETED →
  allowed_trace ps evs →
  replay evs ps !! i = Some p ∧ Forall (λ ev, event_playlist ev ≠ i) evs.
Proof.
  revert ps. induction evs as [|ev evs IH]; intros ps Hp Hst Hal; [done|].
  destruct Hal as [Hev Hal].
  assert (Hne : event_playlist ev ≠ i).
  { intros <-. destruct (allowed_open ps ev Hev) as (p0 & Hp0 & Hst0). congruence. }
  destruct (IH (apply_event ps ev)) as [Hr Hf]; try done.
  { by rewrite apply_event_other. }
  split; [done|by constructor].
Qed.

Lemma track_at_apply_event ps ev i j :
  event_track ev ≠ Some (i, j) →
  track_at (apply_event ps ev) i j = track_at ps i j.
Proof.
  intros Hne. unfold track_at.
  destruct (decide (event_playlist ev = i)) as [<-|Hi];
    [|by rewrite apply_event_other].
  destruct ev as [| | |i' j' st|]; simpl in *; try done;
    unfold set_playlist_id, set_track_status, set_playlist_status;
    rewrite list_lookup_alter_eq; destruct (ps !! _) as [p|]; simpl; try done.
  rewrite list_lookup_alter_ne; [done|]. congruence.
Qed.

Lemma track_at_is_Some_apply_event ps ev i j :
  is_Some (track_at (apply_event ps ev) i j) → is_Some (track_at ps i j).
Proof.
  destruct (decide (event_track ev = Some (i, j))) as [Heq|Hne];
    [|by rewrite track_at_apply_event].
  destruct ev as [| | |i' j' st|]; simpl in *; try done. simplify_eq.
  unfold track_at, set_track_status. rewrite list_lookup_alter_eq.
  destruct (ps !! i) as [p|]; simpl; [|done].
  rewrite list_lookup_alter_eq. by destruct (Playlist.tracks p !! j).
Qed.

Lemma track_at_is_Some_replay evs ps i j :
  is_Some (track_at (replay evs ps) i j) → is_Some (track_at ps i j).
Proof.
  revert ps. induction evs as [|ev evs IH]; intros ps; [done|].
  intros H. by apply (track_at_is_Some_apply_event ps ev), IH.
Qed.

Lemma allowed_track ps ev i j :
  allowed ps ev → event_track ev = Some (i, j) →
  ∃ t, track_at ps i j = Some t ∧ Track.status t = PENDING.
Proof.
  unfold track_at.
  destruct ev; simpl; intros Hal Heq; try done; simplify_eq.
  - destruct Hal as (p & t & Hp & _ & Ht & Hst & _). rewrite Hp. simpl. eauto.
  - destruct Hal as (_ & p & t & Hp & _ & Ht & Hst). rewrite Hp. simpl. eauto.
Qed.

(** A track whose status is not PENDING is never attempted and never
    assigned to. *)
Lemma settled_track_untouched evs ps i j t :
  track_at ps i j = Some t → Track.status t ≠ PENDING →
  allowed_trace ps evs →
  track_at (replay evs ps) i j = Some t
  ∧ Forall (λ ev, event_track ev ≠ Some (i, j)) evs.
Proof.
  revert ps. induction evs as [|ev evs IH]; intros ps Ht Hst Hal; [done|].
  destruct Hal as [Hev Hal].
  assert (Hne : event_track ev ≠ Some (i, j)).
  { intros Heq. destruct (allowed_track ps ev i j Hev Heq) as (t' & Ht' & Hp).
    congruence. }
  destruct (IH (apply_event ps ev)) as [Hr Hf]; try done.
  { by rewrite track_at_apply_event. }
  split; [done|by constructor].
Qed.

(** An insertion is attempted only for a track that was PENDING when the
    run began. *)
Lemma attempted_track_was_pending evs ps i j pid vid res :
  allowed_trace ps evs →
  InsertCall i j pid vid res ∈ evs →
  ∃ t, track_at ps i j = Some t ∧ Track.status t = PENDING.
Proof.
  intros Hal (evs1 & evs2 & ->)%list_elem_of_split.
  apply allowed_trace_app in Hal as [Hal1 [Hev _]].
  destruct (allowed_track _ _ i j Hev eq_refl) as (t1 & Ht1 & Hp1).
  destruct (track_at_is_Some_replay evs1 ps i j) as [t Ht]; [by rewrite Ht1|].
  exists t. split; [done|].
  destruct (decide (Track.status t = PENDING)) as [|Hne]; [done|].
  destruct (settled_track_untouched evs1 ps i j t Ht Hne Hal1) as [Hr _].
  congruence.
Qed.

(** A playlist that the trace leaves COMPLETED was COMPLETED before and
    has not been touched, or has no PENDING track. *)
Lemma completed_has_none_pending evs ps i p' :
  allowed_trace ps evs →
  replay evs ps !! i = Some p' → Playlist.status p' = COMPLETED →
  ps !! i = Some p' ∨ none_pending (Playlist.tracks p') = true.
Proof.
  revert ps. induction evs as [|ev evs IH]; intros ps Hal Hp' Hst; [by left|].
  destruct Hal as [Hev Hal].
  destruct (IH (apply_event ps ev) Hal Hp' Hst) as [H1|H]; [|by right].
  destruct (decide (event_playlist ev = i)) as [<-|Hne];
    [|left; by rewrite <- (apply_event_other ps ev i)].
  destruct ev as [| | |i' j' st|i' st]; simpl in *; try (by left);
    unfold set_playlist_id, set_track_status, set_playlist_status in H1;
    rewrite list_lookup_alter_eq in H1.
  - destruct Hev as (p & Hp & Hne & _). rewrite Hp in H1; simpl in H1; simplify_eq; simpl in *; done.
  - destruct Hev as (_ & p & t & Hp & Hne & _). rewrite Hp in H1; simpl in H1; simplify_eq; simpl in *; done.
  - destruct Hev as (_ & p & Hp & Hne & Hnone).
    rewrite Hp in H1; simpl in H1; simplify_eq; by right.
Qed.

Lemma completed_ok_replay evs ps :
  allowed_trace ps evs →
  Forall completed_ok ps → Forall completed_ok (replay evs ps).
Proof.
  intros Hal Hall. apply Forall_lookup. intros i p' Hp' Hst.
  destruct (completed_has_none_pending evs ps i p' Hal Hp' Hst) as [Hp|H]; [|done].
  by apply (Forall_lookup_1 _ _ _ _ Hall Hp).
Qed.

(** Any run on files that the program wrote: the trace is allowed, the
    state file holds the loaded Run State with every assignment of the
    trace made, and the cache file is as it was. *)
Lemma execute_any w (fs : files) ps vs :
  fs !! STATE_FILE = Some (Doc (json_of_state ps)) →
  fs !! VIDEO_INFO_CACHE_FILE = Some (Doc (json_of_cache vs)) →
  let r := execute w fs in
  let evs := trace (final r) in
  allowed_trace ps evs
  ∧ disk (final r) = <[STATE_FILE := Doc (json_of_state (replay evs ps))]> fs
  ∧ (Forall unfinished_ok ps → Forall unfinished_ok (replay evs ps)).
Proof.
  intros Hs Hc. destruct (decide (vs = [])) as [->|Hvs].
  - rewrite (execute_empty_cache w fs ps Hs Hc). simpl.
    repeat split; [|done]. symmetry. by apply insert_id.
  - destruct (execute_resumed w fs ps vs Hs Hc Hvs) as (_ & Hal & Hd & Hu & _).
    done.
Qed.

(** C1: when a remote write call of a run fails with a 403 whose text
    mentions a quota, that call is the last thing the run does: nothing
    is attempted or assigned after it, the process exits with status 0,
    and the state file holds the loaded Run State with every assignment
    made before the error; loading it gives that state back. *)
Theorem quota_error_saves_and_exits w (fs : files) ps vs k ev :
  fs !! STATE_FILE = Some (Doc (json_of_state ps)) →
  fs !! VIDEO_INFO_CACHE_FILE = Some (Doc (json_of_cache vs)) →
  let r := execute w fs in
  trace (final r) !! k = Some ev →
  quota_failure ev = true →
  how r = SysExit 0
  ∧ length (trace (final r)) = S k
  ∧ playlist_data (final r) = replay (trace (final r)) ps
  ∧ disk (final r)
    = <[STATE_FILE := Doc (json_of_state (playlist_data (final r)))]> fs
  ∧ (load_state STATE_FILE (disk (final r)) = Loaded (json_of_state (playlist_data (final r)))
     ∧ state_of_json (json_of_state (playlist_data (final r)))
       = Some (playlist_data (final r))).
Proof.
  intros Hs Hc r Hk Hq. subst r.
  destruct (decide (vs = [])) as [->|Hvs].
  { rewrite (execute_empty_cache w fs ps Hs Hc) in Hk. done. }
  destruct (execute_resumed w fs ps vs Hs Hc Hvs)
    as (Hd & _ & Hdisk & _ & [(_ & Hnq & _)|(Hhow & evs0 & ev' & Hevs & Hq' & Hnq)]).
  { apply (Forall_lookup_1 _ _ _ _ Hnq) in Hk. congruence. }
  assert (Hlen : length (trace (final (execute w fs))) = S k).
  { rewrite Hevs in Hk |- *. rewrite length_app. simpl.
    destruct (decide (k < length evs0)%nat) as [Hlt|Hge].
    - rewrite lookup_app_l in Hk by done.
      apply (Forall_lookup_1 _ _ _ _ Hnq) in Hk. congruence.
    - apply lookup_lt_Some in Hk. rewrite length_app in Hk. simpl in Hk. lia. }
  assert (Hdisk' : disk (final (execute w fs))
                   = <[STATE_FILE := Doc (json_of_state (playlist_data (final (execute w fs))))]> fs).
  { by rewrite Hd. }
  repeat split; try done.
  - unfold load_state. by rewrite Hdisk', lookup_insert_eq.
  - apply state_of_json_of_state.
Qed.

(** C6: a playlist that a run turns COMPLETED has no PENDING track, and
    if no COMPLETED playlist of the state file had a PENDING track before
    the run, none has in the state file the run leaves, whether it ended
    normally or on a quota error. *)
Theorem completed_only_without_pending w (fs : files) ps vs :
  fs !! STATE_FILE = Some (Doc (json_of_state ps)) →
  fs !! VIDEO_INFO_CACHE_FILE = Some (Doc (json_of_cache vs)) →
  let r := execute w fs in
  ∃ ps', disk (final r) !! STATE_FILE = Some (Doc (json_of_state ps'))
    ∧ length ps' = length ps
    ∧ (∀ i p p', ps !! i = Some p → ps' !! i = Some p' →
         Playlist.status p ≠ COMPLETED → Playlist.status p' = COMPLETED →
         none_pending (Playlist.tracks p') = true)
    ∧ (Forall completed_ok ps → Forall completed_ok ps').
Proof.
  intros Hs Hc r. subst r.
  destruct (execute_any w fs ps vs Hs Hc) as (Hal & Hd & _).
  exists (replay (trace (final (execute w fs))) ps).
  split; [by rewrite Hd, lookup_insert_eq|].
  split; [apply length_replay|]. split.
  - intros i p p' Hp Hp' Hne Hst.
    destruct (completed_has_none_pending _ ps i p' Hal Hp' Hst); [congruence|done].
  - by apply completed_ok_replay.
Qed.

(** A run finds every playlist COMPLETED: nothing happens in the loop. *)
Lemma playlist_loop_all_completed ids positions s :
  (∀ i, i ∈ positions →
     ∃ p, playlist_data s !! i = Some p ∧ Playlist.status p = COMPLETED) →
  playlist_loop' ids positions s = Next s.
Proof.
  induction positions as [|i rest IH]; intros Hall; [done|].
  cbn [playlist_loop]. destruct (Hall i) as (p & Hp & Hst); [set_solver|].
  unfold playlist_step. rewrite Hp, Hst. simpl. apply IH. set_solver.
Qed.

(** C3, amended: on a Run State in which no track is PENDING and every
    playlist is COMPLETED, a run makes no remote call, assigns nothing,
    and leaves the disk as it was; so does a second run after it. *)
Theorem completed_state_is_left_alone w (fs : files) ps vs :
  fs !! STATE_FILE = Some (Doc (json_of_state ps)) →
  fs !! VIDEO_INFO_CACHE_FILE = Some (Doc (json_of_cache vs)) →
  Forall (λ p, none_pending (Playlist.tracks p) = true) ps →
  Forall (λ p, Playlist.status p = COMPLETED) ps →
  let r := execute w fs in
  let r' := execute (world (final r)) (disk (final r)) in
  remote_calls (trace (final r)) = []
  ∧ trace (final r) = []
  ∧ disk (final r) = fs
  ∧ trace (final r') = []
  ∧ disk (final r') = fs.
Proof.
  intros Hs Hc _ Hall.
  assert (Hrun : ∀ w', trace (final (execute w' fs)) = []
                       ∧ disk (final (execute w' fs)) = fs).
  { intros w'. destruct (decide (vs = [])) as [->|Hvs].
    { by rewrite (execute_empty_cache w' fs ps Hs Hc). }
    unfold run_execution_phase, load_state. rewrite Hs, Hc.
    replace (py_not (json_of_state ps) || py_not (json_of_cache vs)) with false.
    2:{ destruct vs; done. }
    rewrite state_of_json_of_state, cache_of_json_of_cache.
    rewrite playlist_loop_all_completed.
    - simpl. split; [done|]. by apply save_state_same.
    - intros i [_ Hi]%elem_of_seq. simpl in *.
      destruct (lookup_lt_is_Some_2 ps i) as [p Hp]; [lia|].
      exists p. split; [done|]. by apply (Forall_lookup_1 _ _ _ _ Hall Hp). }
  intros r r'. subst r r'.
  destruct (Hrun w) as [Ht Hd]. rewrite Hd, Ht.
  destruct (Hrun (world (final (execute w fs)))) as [Ht' Hd'].
  by rewrite Ht', Hd'.
Qed.


Lemma enrich_unfinished_ok gs : Forall unfinished_ok (enrich <$> gs).
Proof.
  apply Forall_fmap, Forall_true. intros g. unfold unfinished_ok. simpl.
  destruct (video_indices g); [by right; left|by right; right].
Qed.

(** Runs one after the other on files that the program wrote: what each
    of them leaves on disk, for a track that is settled and for a
    playlist that is COMPLETED before the first of them. *)
Lemma later_runs_settled ws (fs : files) ps vs i j t r :
  fs !! STATE_FILE = Some (Doc (json_of_state ps)) →
  fs !! VIDEO_INFO_CACHE_FILE = Some (Doc (json_of_cache vs)) →
  Forall unfinished_ok ps →
  track_at ps i j = Some t →
  Track.status t ≠ PENDING →
  r ∈ later_runs create_playlist_on_youtube add_video_to_playlist ws fs →
  ∃ ps', disk (final r) !! STATE_FILE = Some (Doc (json_of_state ps'))
    ∧ Forall unfinished_ok ps'
    ∧ track_at ps' i j = Some t
    ∧ Forall (λ ev, event_track ev ≠ Some (i, j)) (trace (final r))
    ∧ ∀ p, ps !! i = Some p → Playlist.status p = COMPLETED →
        ps' !! i = Some p
        ∧ Forall (λ ev, event_playlist ev ≠ i) (trace (final r)).
Proof.
  revert fs ps. induction ws as [|w ws IH]; intros fs ps Hs Hc Hu Ht Hst Hr.
  { by apply elem_of_nil in Hr. }
  cbn [later_runs] in Hr.
  destruct (execute_any w fs ps vs Hs Hc) as (Hal & Hd & Hu').
  set (evs := trace (final (execute w fs))) in *.
  destruct (settled_track_untouched evs ps i j t Ht Hst Hal) as [Ht' Hno].
  apply elem_of_cons in Hr as [->|Hr].
  - exists (replay evs ps). rewrite Hd, lookup_insert_eq.
    repeat split; try done; [by apply Hu'| |];
      by destruct (completed_untouched evs ps i p).
  - destruct (IH (disk (final (execute w fs))) (replay evs ps))
      as (ps' & Hs' & Hu'' & Ht'' & Hno' & Hc'); try done.
    { by rewrite Hd, lookup_insert_eq. }
    { rewrite Hd, lookup_insert_ne; [done|]. apply state_files_are_distinct. }
    { by apply Hu'. }
    exists ps'. repeat split; try done;
      destruct (completed_untouched evs ps i p) as [Hp' _]; try done;
      by destruct (Hc' p).
Qed.

(** C9: on files that the program wrote, a run attempts only tracks that
    were PENDING when it began; a track that is FAILED stays FAILED in
    the state file through every later run, and no later run attempts it
    or assigns to it; and once none of the tracks of its playlist is
    PENDING the playlist is COMPLETED, and every later run leaves it as
    it is and does nothing about it. *)
Theorem failed_track_is_never_retried ws (fs : files) ps vs i j p t :
  fs !! STATE_FILE = Some (Doc (json_of_state ps)) →
  fs !! VIDEO_INFO_CACHE_FILE = Some (Doc (json_of_cache vs)) →
  Forall unfinished_ok ps →
  ps !! i = Some p →
  Playlist.tracks p !! j = Some t →
  Track.status t = FAILED →
  (∀ w i' j' playlist_id video_id res,
     InsertCall i' j' playlist_id video_id res ∈ trace (final (execute w fs)) →
     ∃ t', track_at ps i' j' = Some t' ∧ Track.status t' = PENDING)
  ∧ ∀ r, r ∈ later_runs create_playlist_on_youtube add_video_to_playlist ws fs →
      ∃ ps', disk (final r) !! STATE_FILE = Some (Doc (json_of_state ps'))
        ∧ Forall unfinished_ok ps'
        ∧ track_at ps' i j = Some t
        ∧ Forall (λ ev, event_track ev ≠ Some (i, j)) (trace (final r))
        ∧ (none_pending (Playlist.tracks p) = true →
           Playlist.status p = COMPLETED
           ∧ ps' !! i = Some p
           ∧ Forall (λ ev, event_playlist ev ≠ i) (trace (final r))).
Proof.
  intros Hs Hc Hu Hp Ht Hst. split.
  { intros w i' j' playlist_id video_id res Hin.
    destruct (execute_any w fs ps vs Hs Hc) as (Hal & _).
    by eapply attempted_track_was_pending. }
  intros r Hr.
  assert (Hat : track_at ps i j = Some t).
  { unfold track_at. by rewrite Hp. }
  assert (Hne : Track.status t ≠ PENDING) by (by rewrite Hst).
  destruct (later_runs_settled ws fs ps vs i j t r Hs Hc Hu Hat Hne Hr)
    as (ps' & Hs' & Hu' & Ht' & Hno & Hcomp).
  exists ps'. do 4 (split; [done|]).
  intros Hnone.
  assert (Hdone : Playlist.status p = COMPLETED).
  { destruct (Forall_lookup_1 _ _ _ _ Hu Hp) as [Hdone|[Hnil|Hpend]];
      [done| |congruence].
    rewrite Hnil in Ht. done. }
  by destruct (Hcomp p Hp Hdone).
Qed.
End ExecutorProperties.

(** ** The collector *)

Lemma first_seen_elem l x : x ∈ first_seen l ↔ x ∈ l.
Proof.
  induction l as [|y l IH]; simpl; [done|].
  rewrite !elem_of_cons, list_elem_of_filter, IH.
  destruct (decide (x = y)); naive_solver.
Qed.

Lemma first_seen_NoDup l : NoDup (first_seen l).
Proof.
  induction l as [|y l IH]; simpl; [constructor|].
  constructor; [|by apply NoDup_filter].
  rewrite list_elem_of_filter. naive_solver.
Qed.




Section BatchProperties.
Variable videos_list : string → list video_item.

Local Abbreviation batch_loop' := (batch_loop videos_list).

(** The answer of the service to the request for one batch. *)
Local Abbreviation answer :=
  (λ batch : list string, video_of_item <$> videos_list (join "," batch)).



End BatchProperties.

Section PageProperties.
Variable playlistItems_list : string → option string → page.

Local Abbreviation page_loop' := (page_loop playlistItems_list).
Local Abbreviation collect_loop' := (collect_loop playlistItems_list).

Lemma page_loop_acc fuel playlist_id next_token all_track_ids :
  page_loop' fuel playlist_id next_token all_track_ids
  = (all_track_ids ++.) <$> page_loop' fuel playlist_id next_token [].
Proof.
  revert next_token all_track_ids.
  induction fuel as [|fuel IH]; intros tok acc; [done|].
  cbn [page_loop]. destruct (not_str _).
  - by rewrite ?app_nil_l.
  - rewrite ?app_nil_l. rewrite (IH _ (acc ++ _)), (IH _ (items _)).
    destruct (page_loop' fuel _ _ []); simpl; [|done].
    by rewrite app_assoc.
Qed.

(** More fuel does not change the pages of a playlist whose page loop
    has ended. *)
Lemma page_loop_more_fuel fuel extra playlist_id next_token all_track_ids l :
  page_loop' fuel playlist_id next_token all_track_ids = Some l →
  page_loop' (fuel + extra) playlist_id next_token all_track_ids = Some l.
Proof.
  revert next_token all_track_ids.
  induction fuel as [|fuel IH]; intros tok acc; [done|].
  cbn [page_loop Nat.add]. destruct (not_str _); [done|]. apply IH.
Qed.

Lemma collect_loop_items fuel playlist_ids all_track_ids :
  (∀ playlist_id, playlist_id ∈ playlist_ids →
     is_Some (page_loop' fuel playlist_id None [])) →
  collect_loop' fuel playlist_ids all_track_ids
  = Some (all_track_ids
          ++ (playlist_ids ≫= λ playlist_id,
                default [] (page_loop' fuel playlist_id None []))).
Proof.
  revert all_track_ids.
  induction playlist_ids as [|pid rest IH]; intros acc Hend.
  - simpl. by rewrite app_nil_r.
  - cbn [collect_loop]. rewrite page_loop_acc, bind_cons.
    destruct (Hend pid) as [l Hl]; [set_solver|]. rewrite Hl. simpl.
    rewrite IH by set_solver. by rewrite <- app_assoc.
Qed.

(** C2, amended: [fetch_all_playlist_track_ids] returns the set of the
    video ids of all pages of all source playlists.  Iterating it gives
    every collected id exactly once, that is, the ids of the first-seen
    order in some order. *)
Theorem fetch_all_playlist_track_ids_spec fuel playlist_ids :
  (∀ playlist_id, playlist_id ∈ playlist_ids →
     is_Some (page_loop' fuel playlist_id None [])) →
  let all_track_ids :=
    playlist_ids ≫= λ playlist_id,
      default [] (page_loop' fuel playlist_id None []) in
  ∃ unique_ids,
    fetch_all_playlist_track_ids playlistItems_list fuel playlist_ids
    = Some unique_ids
    ∧ (∀ extra,
         fetch_all_playlist_track_ids playlistItems_list (fuel + extra) playlist_ids
         = Some unique_ids)
    ∧ (∀ x, x ∈ unique_ids ↔ x ∈ all_track_ids)
    ∧ NoDup (list_of_set unique_ids)
    ∧ (∀ x, x ∈ list_of_set unique_ids ↔ x ∈ all_track_ids)
    ∧ list_of_set unique_ids ≡ₚ first_seen all_track_ids.
Proof.
  intros Hend all. exists (list_to_set all).
  assert (Hcollect : ∀ extra,
            collect_loop' (fuel + extra) playlist_ids [] = Some all).
  { intros extra. rewrite collect_loop_items.
    - simpl. f_equal. subst all. clear -Hend.
      induction playlist_ids as [|pid rest IH]; [done|].
      rewrite !bind_cons. rewrite IH by set_solver. f_equal.
      destruct (Hend pid) as [l Hl]; [set_solver|].
      by rewrite (page_loop_more_fuel _ _ _ _ _ l Hl), Hl.
    - intros pid Hpid. destruct (Hend pid Hpid) as [l Hl].
      by rewrite (page_loop_more_fuel _ _ _ _ _ l Hl). }
  unfold fetch_all_playlist_track_ids, list_of_set.
  split; [|split; [|split; [|split; [|split]]]].
  - specialize (Hcollect 0%nat). rewrite Nat.add_0_r in Hcollect.
    by rewrite Hcollect.
  - intros extra. by rewrite Hcollect.
  - intros x. apply elem_of_list_to_set.
  - apply NoDup_elements.
  - intros x. by rewrite elem_of_elements, elem_of_list_to_set.
  - apply NoDup_Permutation.
    + apply NoDup_elements.
    + apply first_seen_NoDup.
    + intros x. by rewrite elem_of_elements, elem_of_list_to_set, first_seen_elem.
Qed.
End PageProperties.

(** ** The analysis phase hands the execution phase what it expects *)

Section AnalysisProperties.
Variable playlistItems_list : string → option string → page.
Variable videos_list : string → list video_item.
Variable generate_content : list Video.t → Z → gemini_response.
Variable fuel : nat.

(** When the analysis phase returns, both files hold documents of the
    shape the execution phase reads, every playlist and every track is
    PENDING, and no playlist has an id. *)
Lemma run_analysis_phase_done source_playlist_ids (fs fs' : files) out :
  run_analysis_phase playlistItems_list videos_list generate_content fuel
    source_playlist_ids fs = (fs', Done () out) →
  ∃ gs vs,
    fs' !! STATE_FILE = Some (Doc (json_of_state (enrich <$> gs)))
    ∧ fs' !! VIDEO_INFO_CACHE_FILE = Some (Doc (json_of_cache vs))
    ∧ Forall unfinished_ok (enrich <$> gs)
    ∧ Forall completed_ok (enrich <$> gs).
Proof.
  unfold run_analysis_phase.
  destruct (fetch_all_playlist_track_ids _ _ _) as [unique|]; [|done].
  destruct (generate_playlists_from_videos _) as [playlist_data out'|]; [|done].
  destruct (py_not playlist_data); [done|].
  destruct (suggestions_of_json playlist_data) as [gs|]; [|done].
  intros [= <- <-]. eexists gs, _. rewrite !save_state_eq.
  rewrite lookup_insert_eq, lookup_insert_ne, lookup_insert_eq
    by apply state_files_are_distinct.
  repeat split; try done.
  - apply Forall_fmap, Forall_true. intros g. unfold unfinished_ok. simpl.
    destruct (video_indices g); [by right; left|by right; right].
  - apply Forall_fmap, Forall_true. by intros g.
Qed.

(** An empty or failed answer of the model ends the run with status 1. *)
Lemma run_analysis_phase_no_answer source_playlist_ids (fs : files) unique :
  fetch_all_playlist_track_ids playlistItems_list fuel source_playlist_ids
  = Some unique →
  py_not (match generate_content
                  (fetch_video_details_in_batches videos_list
                     (list_of_set unique)).2 NUM_PLAYLISTS_TO_GENERATE with
          | GText parsed => parsed
          | _ => JNull
          end) = true →
  ∃ fs' out,
    run_analysis_phase playlistItems_list videos_list generate_content fuel
      source_playlist_ids fs = (fs', Stop (SysExit 1) out)
    ∧ last out = Some MsgFatalGemini.
Proof.
  intros Hu Hno. unfold run_analysis_phase. rewrite Hu.
  destruct (generate_content _ _) as [e| |parsed]; simpl in *.
  - by eexists _, _.
  - by eexists _, _.
  - rewrite Hno. by eexists _, _.
Qed.
End AnalysisProperties.

Lemma quota_error_saves_and_exits_witness :
  let r := run_execution_phase (Example.create 3) (Example.add 3) 0%nat Example.disk in
  how r = SysExit 0
  ∧ length (trace (final r)) = 8%nat
  ∧ playlist_data (final r) = replay (trace (final r)) Example.playlists
  ∧ disk (final r)
    = <[STATE_FILE := Doc (json_of_state (playlist_data (final r)))]> Example.disk
  ∧ (load_state STATE_FILE (disk (final r)) = Loaded (json_of_state (playlist_data (final r)))
     ∧ state_of_json (json_of_state (playlist_data (final r)))
       = Some (playlist_data (final r))).
Proof.
  apply (quota_error_saves_and_exits (Example.create 3) (Example.add 3) 0%nat
           Example.disk Example.playlists Example.videos 7
           (CreateCall 1 "Jazz" "Cool" (Raises Example.quota_error)));
    reflexivity.
Defined.

Lemma completed_only_without_pending_witness :
  let r := run_execution_phase (Example.create 3) (Example.add 3) 0%nat Example.disk in
  ∃ ps', disk (final r) !! STATE_FILE = Some (Doc (json_of_state ps'))
    ∧ length ps' = length Example.playlists
    ∧ (∀ i p p', Example.playlists !! i = Some p → ps' !! i = Some p' →
         Playlist.status p ≠ COMPLETED → Playlist.status p' = COMPLETED →
         none_pending (Playlist.tracks p') = true)
    ∧ (Forall completed_ok Example.playlists → Forall completed_ok ps').
Proof.
  apply (completed_only_without_pending (Example.create 3) (Example.add 3) 0%nat
           Example.disk Example.playlists Example.videos); reflexivity.
Defined.

(** C3 as stated fails: the Run State that the analysis phase writes for a
    plan with a playlist without tracks has no PENDING track, yet the run
    creates that playlist remotely and changes the state file. *)
Lemma empty_playlist_is_created :
  let r := run_execution_phase (Example.create 3) (Example.add 3) 0%nat
             Example.disk_with_empty_playlist in
  Forall (λ p, none_pending (Playlist.tracks p) = true) Example.empty_playlist
  ∧ remote_calls (trace (final r))
    = [CreateCall 0 "Empty" "" (Ok (Some "PL-Empty"))]
  ∧ disk (final r) !! STATE_FILE ≠ Example.disk_with_empty_playlist !! STATE_FILE.
Proof.
  split; [by repeat constructor|]. split; [reflexivity|].
  vm_compute. discriminate.
Qed.

Lemma completed_state_is_left_alone_witness :
  let fs := disk (final (run_execution_phase (Example.create 9) (Example.add 9)
                           0%nat Example.disk)) in
  let r := run_execution_phase (Example.create 9) (Example.add 9) 5%nat fs in
  let r' := run_execution_phase (Example.create 9) (Example.add 9)
              (world (final r)) (disk (final r)) in
  remote_calls (trace (final r)) = []
  ∧ trace (final r) = []
  ∧ disk (final r) = fs
  ∧ trace (final r') = []
  ∧ disk (final r') = fs.
Proof.
  apply (completed_state_is_left_alone (Example.create 9) (Example.add 9) 5%nat _
           (playlist_data (final (run_execution_phase (Example.create 9)
                                    (Example.add 9) 0%nat Example.disk)))
           Example.videos).
  - reflexivity.
  - reflexivity.
  - vm_compute. repeat constructor.
  - vm_compute. repeat constructor.
Defined.


Lemma failed_track_is_never_retried_witness :
  let fs := disk (final (run_execution_phase (Example.create 3) (Example.add 3)
                           0%nat Example.disk)) in
  let r1 := run_execution_phase (Example.create 9) (Example.add 9) 0%nat fs in
  let r2 := run_execution_phase (Example.create 9) (Example.add 9) 4%nat
              (disk (final r1)) in
  ∃ ps', disk (final r2) !! STATE_FILE = Some (Doc (json_of_state ps'))
    ∧ Forall unfinished_ok ps'
    ∧ track_at ps' 0 1 = Some {| Track.index := 2; Track.status := FAILED |}
    ∧ Forall (λ ev, event_track ev ≠ Some (0%nat, 1%nat)) (trace (final r2)).
Proof.
  intros fs r1 r2.
  destruct (failed_track_is_never_retried (Example.create 9) (Example.add 9)
              [0%nat; 4%nat] fs
              (playlist_data (final (run_execution_phase (Example.create 3)
                                       (Example.add 3) 0%nat Example.disk)))
              Example.videos 0 1
              {| Playlist.playlist_title := "Rock";
                 Playlist.playlist_description := "Loud";
                 Playlist.status := COMPLETED;
                 Playlist.tracks :=
                   [{| Track.index := 1; Track.status := COMPLETED |};
                    {| Track.index := 2; Track.status := FAILED |}];
                 Playlist.youtube_playlist_id := Some "PL-Rock" |}
              {| Track.index := 2; Track.status := FAILED |})
    as [_ H].
  - reflexivity.
  - reflexivity.
  - set (l := playlist_data _). vm_compute in l. subst l.
    constructor; [by left|]. constructor; [right; right; reflexivity|].
    constructor.
  - reflexivity.
  - reflexivity.
  - reflexivity.
  - destruct (H r2) as (ps' & H1 & H2 & H3 & H4 & _).
    + cbn [later_runs]. apply elem_of_cons. right. apply elem_of_cons. left.
      reflexivity.
    + exists ps'. exact (conj H1 (conj H2 (conj H3 H4))).
Defined.

(** C2 as stated fails: the result is a set, and the two source playlists
    of the example give the same set although their first-seen orders
    differ, so the order in which the result is iterated cannot be the
    first-seen order for both. *)
Lemma iteration_order_is_not_first_seen :
  ¬ (∀ playlist_ids all_track_ids unique_ids,
       collect_loop ExampleSource.playlistItems_list 1 playlist_ids []
       = Some all_track_ids →
       fetch_all_playlist_track_ids ExampleSource.playlistItems_list 1 playlist_ids
       = Some unique_ids →
       list_of_set unique_ids = first_seen all_track_ids).
Proof.
  intros H.
  pose proof (H ["P1"] ["a"; "b"] {[ "a"; "b" ]}) as H1.
  pose proof (H ["P2"] ["b"; "a"] {[ "a"; "b" ]}) as H2.
  assert (E1 : list_of_set {[ "a"; "b" ]} = ["a"; "b"]).
  { apply H1; reflexivity. }
  assert (E2 : list_of_set {[ "a"; "b" ]} = ["b"; "a"]).
  { apply H2; reflexivity. }
  rewrite E1 in E2. discriminate.
Qed.

Lemma fetch_all_playlist_track_ids_spec_witness :
  ∃ unique_ids,
    fetch_all_playlist_track_ids ExampleSource.playlistItems_list 2 ["P3"; "P1"]
    = Some unique_ids
    ∧ list_of_set unique_ids ≡ₚ ["c"; "a"; "d"; "b"].
Proof.
  destruct (fetch_all_playlist_track_ids_spec ExampleSource.playlistItems_list
              2 ["P3"; "P1"]) as (s & Hs & _ & _ & _ & _ & Hperm).
  - intros pid Hpid. apply elem_of_cons in Hpid as [->|Hpid].
    + by eexists.
    + apply list_elem_of_singleton in Hpid. rewrite Hpid. by eexists.
  - exists s. split; [exact Hs|exact Hperm].
Defined.


(** * Further properties of the code *)

(** ** The state store *)

(** What [save_state] writes is what [load_state] reads back at that
    path, whatever was there before; no other path is affected; the last
    of two saves wins; and a file that holds JSON [null] loads like a
    missing one. *)
Theorem save_then_load data data' file_path other (fs : files) :
  other ≠ file_path →
  load_state file_path (save_state data file_path fs) = Loaded data
  ∧ load_state other (save_state data file_path fs) = load_state other fs
  ∧ save_state data file_path (save_state data' file_path fs)
    = save_state data file_path fs
  ∧ load_state file_path (save_state JNull file_path fs)
    = load_state file_path (delete file_path fs).
Proof.
  intros Hne. rewrite !save_state_eq. unfold load_state.
  rewrite !lookup_insert_eq, lookup_insert_ne, lookup_delete_eq, insert_insert_eq by done.
  done.
Qed.

Lemma save_then_load_witness :
  load_state STATE_FILE (save_state (json_of_cache []) STATE_FILE Example.disk)
  = Loaded (json_of_cache [])
  ∧ load_state VIDEO_INFO_CACHE_FILE
      (save_state (json_of_cache []) STATE_FILE Example.disk)
    = load_state VIDEO_INFO_CACHE_FILE Example.disk
  ∧ save_state (json_of_cache []) STATE_FILE
      (save_state JNull STATE_FILE Example.disk)
    = save_state (json_of_cache []) STATE_FILE Example.disk
  ∧ load_state STATE_FILE (save_state JNull STATE_FILE Example.disk)
    = load_state STATE_FILE (delete STATE_FILE Example.disk).
Proof.
  apply (save_then_load (json_of_cache []) JNull STATE_FILE VIDEO_INFO_CACHE_FILE
           Example.disk).
  discriminate.
Defined.

(** ** Quota detection *)

Lemma prefix_spec (s1 s2 : string) :
  String.prefix s1 s2 = true ↔ ∃ post, s2 = (s1 ++ post)%string.
Proof.
  revert s2. induction s1 as [|a s1 IH]; intros s2; simpl.
  - split.
    + intros _. exists s2. reflexivity.
    + intros _. by destruct s2.
  - destruct s2 as [|b s2].
    + split; [discriminate|]. intros [post H]. discriminate.
    + simpl. destruct (Ascii.ascii_dec a b) as [->|Hne].
      * rewrite IH. split.
        -- intros [post ->]. exists post. reflexivity.
        -- intros [post H]. simpl in H. injection H as H. by exists post.
      * split; [discriminate|]. intros [post H]. simpl in H.
        injection H as H1 H2. by destruct Hne.
Qed.

Lemma str_in_spec (needle hay : string) :
  str_in needle hay = true
  ↔ ∃ pre post, hay = (pre ++ needle ++ post)%string.
Proof.
  induction hay as [|a hay IH]; cbn [str_in].
  - destruct (String.prefix needle "") eqn:Hp.
    + apply prefix_spec in Hp as [post Hp]. split; [|done].
      intros _. exists ""%string, post. exact Hp.
    + split; [discriminate|]. intros (pre & post & H).
      destruct pre; simpl in H; [|discriminate].
      assert (String.prefix needle "" = true) as Hp'.
      { apply prefix_spec. by exists post. }
      congruence.
  - destruct (String.prefix needle (String a hay)) eqn:Hp.
    + apply prefix_spec in Hp as [post Hp]. split; [|done].
      intros _. exists ""%string, post. exact Hp.
    + rewrite IH. split.
      * intros (pre & post & ->). by exists (String a pre), post.
      * intros (pre & post & H). destruct pre as [|b pre]; simpl in H.
        -- assert (String.prefix needle (String a hay) = true) as Hp'.
           { apply prefix_spec. by exists post. }
           congruence.
        -- injection H as H1 H2. by exists pre, post.
Qed.

Lemma lower_app (s1 s2 : string) :
  lower (s1 ++ s2) = (lower s1 ++ lower s2)%string.
Proof. induction s1 as [|a s1 IH]; simpl; [done|by rewrite IH]. Qed.

Lemma lower_split (s a b : string) :
  lower s = (a ++ b)%string →
  ∃ s1 s2, s = (s1 ++ s2)%string ∧ lower s1 = a ∧ lower s2 = b.
Proof.
  revert s. induction a as [|c a IH]; intros s H; simpl in H.
  - by exists ""%string, s.
  - destruct s as [|d s]; simpl in H; [done|]. injection H as Hc H.
    destruct (IH s H) as (s1 & s2 & -> & <- & <-).
    exists (String d s1), s2. simpl. by rewrite Hc.
Qed.

(** An error is a quota error exactly when its status is 403 and its text
    has, somewhere, the letters of "quota" in any mix of upper and lower
    case.  So a 403 that does not mention a quota and an error of any
    other status that does (a 429, say) are both ordinary errors. *)
Theorem is_quota_spec e :
  is_quota e = true
  ↔ resp_status e = 403
    ∧ ∃ pre word post,
        str_e e = (pre ++ word ++ post)%string ∧ lower word = "quota".
Proof.
  unfold is_quota. rewrite andb_true_iff, Z.eqb_eq, str_in_spec.
  split; intros [Hs H]; (split; [done|]).
  - destruct H as (pre' & post' & H).
    apply lower_split in H as (pre & rest & -> & <- & H).
    apply lower_split in H as (word & post & -> & Hw & <-).
    by exists pre, word, post.
  - destruct H as (pre & word & post & -> & Hw).
    exists (lower pre), (lower post). by rewrite !lower_app, Hw.
Qed.

(** ** The collector, continued *)


Section BatchCost.
Variable videos_list : string → list video_item.

End BatchCost.

Section SourceOrder.
Variable playlistItems_list : string → option string → page.

(** The collected set depends only on which source playlists are listed:
    listing them in another order, or listing one twice, gives the same
    set; and an empty list of sources gives the empty set without any
    request. *)
Theorem fetch_all_ignores_order_and_repetition fuel playlist_ids playlist_ids' :
  (∀ playlist_id, playlist_id ∈ playlist_ids →
     is_Some (page_loop playlistItems_list fuel playlist_id None [])) →
  (∀ playlist_id, playlist_id ∈ playlist_ids' ↔ playlist_id ∈ playlist_ids) →
  fetch_all_playlist_track_ids playlistItems_list fuel playlist_ids'
  = fetch_all_playlist_track_ids playlistItems_list fuel playlist_ids
  ∧ is_Some (fetch_all_playlist_track_ids playlistItems_list fuel playlist_ids)
  ∧ fetch_all_playlist_track_ids playlistItems_list 0 [] = Some ∅.
Proof.
  intros Hend Hsame.
  destruct (fetch_all_playlist_track_ids_spec playlistItems_list fuel playlist_ids
              Hend) as (s & Hs & _ & Hin & _).
  destruct (fetch_all_playlist_track_ids_spec playlistItems_list fuel playlist_ids')
    as (s' & Hs' & _ & Hin' & _).
  { intros pid Hpid. apply Hend, Hsame, Hpid. }
  rewrite Hs, Hs'. split; [|split; [by eexists|done]].
  f_equal. apply set_eq. intros x. rewrite Hin, Hin', !list_elem_of_bind.
  split; intros (pid & Hx & Hpid); exists pid; (split; [done|]); by apply Hsame.
Qed.
End SourceOrder.

Lemma fetch_all_ignores_order_and_repetition_witness :
  fetch_all_playlist_track_ids ExampleSource.playlistItems_list 2 ["P1"; "P3"; "P1"]
  = fetch_all_playlist_track_ids ExampleSource.playlistItems_list 2 ["P3"; "P1"]
  ∧ is_Some (fetch_all_playlist_track_ids ExampleSource.playlistItems_list 2
               ["P3"; "P1"])
  ∧ fetch_all_playlist_track_ids ExampleSource.playlistItems_list 0 [] = Some ∅.
Proof.
  apply (fetch_all_ignores_order_and_repetition ExampleSource.playlistItems_list
           2 ["P3"; "P1"] ["P1"; "P3"; "P1"]).
  - intros pid Hpid. apply elem_of_cons in Hpid as [Hpid|Hpid].
    + rewrite Hpid. by eexists.
    + apply list_elem_of_singleton in Hpid. rewrite Hpid. by eexists.
  - intros pid. rewrite !elem_of_cons, !elem_of_nil. tauto.
Defined.

(** ** The analysis phase and [main] *)

Section FirstRun.
Context {W : Type}.
Variable playlistItems_list : string → option string → page.
Variable videos_list : string → list video_item.
Variable generate_content : list Video.t → Z → gemini_response.
Variable create_playlist_on_youtube :
  W → string → string → W * api_result (option string).
Variable add_video_to_playlist :
  W → option string → string → W * api_result ().
Variable fuel : nat.

Local Abbreviation analyse :=
  (run_analysis_phase playlistItems_list videos_list generate_content fuel).
Local Abbreviation execute :=
  (run_execution_phase create_playlist_on_youtube add_video_to_playlist).
Local Abbreviation program :=
  (main playlistItems_list videos_list generate_content
     create_playlist_on_youtube add_video_to_playlist fuel).


(** When the model gives no usable answer (an API error, an empty text, or
    a document that is false as a Python value), the analysis phase ends
    the process with status 1 after the fatal line; by then the cache file
    has been written, and the state file has not, so the next start is a
    first run again. *)
Theorem run_analysis_phase_without_answer source_playlist_ids (fs : files)
    unique_video_ids :
  fetch_all_playlist_track_ids playlistItems_list fuel source_playlist_ids
  = Some unique_video_ids →
  let complete_videos_info :=
    (fetch_video_details_in_batches videos_list (list_of_set unique_video_ids)).2 in
  match generate_content complete_videos_info NUM_PLAYLISTS_TO_GENERATE with
  | GText parsed => truthy parsed = false
  | _ => True
  end →
  ∃ out,
    analyse source_playlist_ids fs
    = (save_state (json_of_cache complete_videos_info) VIDEO_INFO_CACHE_FILE fs,
       Stop (SysExit 1) out)
    ∧ last out = Some MsgFatalGemini
    ∧ (analyse source_playlist_ids fs).1 !! STATE_FILE = fs !! STATE_FILE.
Proof.
  intros Hu vs Hno. unfold run_analysis_phase. rewrite Hu. fold vs.
  assert (Hst : save_state (json_of_cache vs) VIDEO_INFO_CACHE_FILE fs !! STATE_FILE
                = fs !! STATE_FILE).
  { rewrite save_state_eq, lookup_insert_ne; [done|].
    intros H. by apply state_files_are_distinct. }
  destruct (generate_content vs NUM_PLAYLISTS_TO_GENERATE) as [e| |parsed]; simpl.
  - by eexists.
  - by eexists.
  - unfold py_not. rewrite Hno. simpl. by eexists.
Qed.

(** With a state file on disk, [main] goes straight to the execution
    phase: it asks nothing of the source playlists, the metadata service
    or the model (the run is the same whatever they would answer), and it
    is the run of the execution phase on the disk as it is. *)
Theorem main_resume_ignores_sources playlistItems_list' videos_list'
    generate_content' fuel' w (fs : files) config ids :
  fs !! CONFIG_FILE = Some (Doc config) →
  source_playlist_ids_of config = Some ids →
  fs !! STATE_FILE ≠ None →
  program ClientReady w fs = after [] (execute w fs)
  ∧ program ClientReady w fs
    = main playlistItems_list' videos_list' generate_content'
        create_playlist_on_youtube add_video_to_playlist fuel' ClientReady w fs.
Proof.
  intros Hc Hi Hs. unfold main, load_config. rewrite Hc, Hi. simpl.
  by rewrite bool_decide_eq_false_2.
Qed.


(** A first run that gets through the analysis phase goes on with the
    execution phase on the two files just written: whatever happens
    there, the state file is left holding the playlists of the plan with
    the assignments of the trace made, every entry of the trace was
    allowed when it happened, and the cache file is the one the analysis
    wrote. *)
Theorem main_first_run w (fs fs' : files) config ids out :
  fs !! CONFIG_FILE = Some (Doc config) →
  source_playlist_ids_of config = Some ids →
  fs !! STATE_FILE = None →
  analyse ids fs = (fs', Done () out) →
  let r := program ClientReady w fs in
  r = after out (execute w fs')
  ∧ ∃ gs,
      fs' !! STATE_FILE = Some (Doc (json_of_state (enrich <$> gs)))
      ∧ allowed_trace (enrich <$> gs) (trace (final r))
      ∧ disk (final r) !! STATE_FILE
        = Some (Doc (json_of_state (replay (trace (final r)) (enrich <$> gs))))
      ∧ disk (final r) !! VIDEO_INFO_CACHE_FILE = fs' !! VIDEO_INFO_CACHE_FILE
      ∧ Forall unfinished_ok (replay (trace (final r)) (enrich <$> gs))
      ∧ Forall completed_ok (replay (trace (final r)) (enrich <$> gs)).
Proof.
  intros Hc Hi Hs Ha r.
  assert (Hr : r = after out (execute w fs')).
  { subst r. unfold main, load_config. rewrite Hc, Hi. simpl.
    rewrite bool_decide_eq_true_2 by done. by rewrite Ha. }
  split; [done|].
  destruct (run_analysis_phase_done _ _ _ _ _ _ _ _ Ha)
    as (gs & vs & Hst & Hca & Hu & Hok).
  exists gs. split; [done|].
  destruct (execute_any create_playlist_on_youtube add_video_to_playlist
              w fs' (enrich <$> gs) vs Hst Hca) as (Hal & Hd & Hu').
  rewrite Hr. simpl. rewrite Hd, lookup_insert_eq, lookup_insert_ne.
  2:{ apply state_files_are_distinct. }
  repeat split; try done.
  - by apply Hu'.
  - by apply completed_ok_replay.
Qed.
End FirstRun.

Section OnlyTheStateFile.
Context {W : Type}.
Variable create_playlist_on_youtube :
  W → string → string → W * api_result (option string).
Variable add_video_to_playlist :
  W → option string → string → W * api_result ().

End OnlyTheStateFile.


Lemma run_analysis_phase_without_answer_witness :
  ∃ out,
    run_analysis_phase ExampleSource.playlistItems_list
      ExampleFirstRun.videos_list ExampleFirstRun.generate_content 2
      [] ExampleFirstRun.disk
    = (save_state (json_of_cache []) VIDEO_INFO_CACHE_FILE ExampleFirstRun.disk,
       Stop (SysExit 1) out)
    ∧ last out = Some MsgFatalGemini.
Proof.
  destruct (run_analysis_phase_without_answer ExampleSource.playlistItems_list
              ExampleFirstRun.videos_list ExampleFirstRun.generate_content 2
              [] ExampleFirstRun.disk ∅) as (out & H1 & H2 & _).
  - reflexivity.
  - exact I.
  - exists out. exact (conj H1 H2).
Defined.

Lemma main_resume_ignores_sources_witness :
  let fs : files := <[CONFIG_FILE := Doc ExampleFirstRun.config]> Example.disk in
  main ExampleSource.playlistItems_list ExampleFirstRun.videos_list
    ExampleFirstRun.generate_content (Example.create 3) (Example.add 3) 2
    ClientReady 0%nat fs
  = after [] (run_execution_phase (Example.create 3) (Example.add 3) 0%nat fs).
Proof.
  intros fs.
  refine (proj1 (main_resume_ignores_sources ExampleSource.playlistItems_list
                   ExampleFirstRun.videos_list ExampleFirstRun.generate_content
                   (Example.create 3) (Example.add 3) 2
                   ExampleSource.playlistItems_list ExampleFirstRun.videos_list
                   ExampleFirstRun.generate_content 0
                   0%nat fs ExampleFirstRun.config ["P1"; "P3"] _ _ _)).
  - reflexivity.
  - reflexivity.
  - discriminate.
Defined.


Lemma main_first_run_witness :
  let fs' := (run_analysis_phase ExampleSource.playlistItems_list
                ExampleFirstRun.videos_list ExampleFirstRun.generate_content 2
                ["P1"; "P3"] ExampleFirstRun.disk).1 in
  main ExampleSource.playlistItems_list ExampleFirstRun.videos_list
    ExampleFirstRun.generate_content (Example.create 3) (Example.add 3) 2
    ClientReady 0%nat ExampleFirstRun.disk
  = after [MsgPhase1; MsgAnalysisComplete STATE_FILE]
      (run_execution_phase (Example.create 3) (Example.add 3) 0%nat fs').
Proof.
  intros fs'.
  refine (proj1 (main_first_run ExampleSource.playlistItems_list
                   ExampleFirstRun.videos_list ExampleFirstRun.generate_content
                   (Example.create 3) (Example.add 3) 2 0%nat
                   ExampleFirstRun.disk fs' ExampleFirstRun.config ["P1"; "P3"]
                   [MsgPhase1; MsgAnalysisComplete STATE_FILE] _ _ _ _)).
  - reflexivity.
  - reflexivity.
  - reflexivity.
  - reflexivity.
Defined.

(** ** The execution phase, continued *)

Lemma index_to_video_id_lookup vs (i : Z) :
  index_to_video_id vs !! i
  = if decide (0 ≤ i) then Video.video_id <$> vs !! Z.to_nat i else None.
Proof.
  unfold index_to_video_id.
  set (l := imap (λ (k : nat) (v : Video.t), (Z.of_nat k, Video.video_id v)) vs).
  assert (Hnd : NoDup l.*1).
  { subst l. rewrite fmap_imap.
    rewrite (imap_ext _ (λ k _, Z.of_nat k)) by done.
    rewrite (imap_seq_0 vs Z.of_nat).
    apply NoDup_fmap; [intros ???; lia|apply NoDup_seq]. }
  apply option_eq. intros x.
  rewrite <- (elem_of_list_to_map l i x Hnd). subst l.
  rewrite elem_of_lookup_imap. split.
  - intros (k & v & [= -> ->] & Hk). rewrite decide_True by lia.
    by rewrite Nat2Z.id, Hk.
  - destruct (decide (0 ≤ i)) as [Hi|]; [|done].
    destruct (vs !! Z.to_nat i) as [v|] eqn:Hv; [|done].
    intros [= <-]. exists (Z.to_nat i), v. split; [|done]. f_equal. lia.
Qed.

Section Skipping.
Context {W : Type}.
Variable add_video_to_playlist :
  W → option string → string → W * api_result ().

(** A PENDING track whose index does not lead to a video id in the cache
    (it is negative, or past the end of the cache, or the record there has
    an empty id) is set to SKIPPED without any remote call; every other
    track costs exactly one insertion call, made with the id of the cached
    record at that index. *)
Theorem unresolved_track_is_skipped vs i playlist_id j t (s : state W) :
  let ids := index_to_video_id vs in
  let f := track_step add_video_to_playlist ids i playlist_id (j, t) s in
  match (if decide (0 ≤ Track.index t)
         then vs !! Z.to_nat (Track.index t) else None) with
  | Some v =>
      if String.eqb (Video.video_id v) "" then
        f = Next (assign (SetTrackStatus i j SKIPPED) s)
      else
        ∃ rest,
          trace (flow_state f)
          = trace s ++ InsertCall i j playlist_id (Video.video_id v)
                         (add_video_to_playlist (world s) playlist_id
                            (Video.video_id v)).2 :: rest
          ∧ world (flow_state f)
            = (add_video_to_playlist (world s) playlist_id (Video.video_id v)).1
          ∧ Forall (λ ev, is_call ev = false) rest
  | None => f = Next (assign (SetTrackStatus i j SKIPPED) s)
  end.
Proof.
  intros ids f. subst ids f. unfold track_step.
  rewrite index_to_video_id_lookup.
  destruct (decide (0 ≤ Track.index t)) as [Hi|]; [|done].
  destruct (vs !! Z.to_nat (Track.index t)) as [v|]; [|done]. simpl.
  destruct (String.eqb (Video.video_id v) ""); [done|].
  destruct (add_video_to_playlist _ _ _) as [w [[]|e]]; simpl.
  - eexists. rewrite <- app_assoc. split; [done|]. split; [done|].
    by repeat constructor.
  - destruct (is_quota e); simpl.
    + exists []. split; [done|]. split; [done|]. constructor.
    + eexists. rewrite <- app_assoc. split; [done|]. split; [done|].
      by repeat constructor.
Qed.
End Skipping.

Lemma skeleton_apply_event ps ev :
  skeleton <$> apply_event ps ev = skeleton <$> ps.
Proof.
  destruct ev; simpl; try done;
    unfold set_playlist_id, set_track_status, set_playlist_status;
    rewrite (list_fmap_alter _ _ id); try (by rewrite list_alter_id);
    apply Forall_true; intros p; try done.
  unfold skeleton. simpl. f_equal.
  rewrite (list_fmap_alter _ _ id); [by rewrite list_alter_id|].
  by apply Forall_true.
Qed.

Lemma skeleton_replay evs ps : skeleton <$> replay evs ps = skeleton <$> ps.
Proof.
  revert ps. induction evs as [|ev evs IH]; intros ps; [done|].
  unfold replay in *. simpl. by rewrite IH, skeleton_apply_event.
Qed.

(** A playlist that has an id keeps it, and is not created again. *)
Lemma created_once evs ps i p :
  ps !! i = Some p →
  not_str (Playlist.youtube_playlist_id p) = false →
  allowed_trace ps evs →
  (∃ p', replay evs ps !! i = Some p'
         ∧ Playlist.youtube_playlist_id p' = Playlist.youtube_playlist_id p)
  ∧ Forall (λ ev, match ev with
                  | CreateCall i' _ _ _ | SetPlaylistId i' _ => i' ≠ i
                  | _ => True
                  end) evs.
Proof.
  revert ps p. induction evs as [|ev evs IH]; intros ps p Hp Hid Hal.
  { split; [by exists p|constructor]. }
  destruct Hal as [Hev Hal].
  assert (Hnext : ∃ p1, apply_event ps ev !! i = Some p1
                        ∧ Playlist.youtube_playlist_id p1
                          = Playlist.youtube_playlist_id p
                        ∧ match ev with
                          | CreateCall i' _ _ _ | SetPlaylistId i' _ => i' ≠ i
                          | _ => True
                          end).
  { destruct (decide (event_playlist ev = i)) as [<-|Hne].
    - destruct ev as [i' ti de r|i' j' pid vid r|i' o|i' j' st|i' st];
        simpl in *.
      + destruct Hev as (p0 & Hp0 & _ & Hno & _). congruence.
      + by exists p.
      + destruct Hev as (p0 & Hp0 & _ & Hno). congruence.
      + exists (with_tracks (alter (with_track_status st) j') p).
        unfold set_track_status. by rewrite list_lookup_alter_eq, Hp.
      + exists (with_status st p).
        unfold set_playlist_status. by rewrite list_lookup_alter_eq, Hp.
    - exists p. rewrite apply_event_other by done.
      split; [done|]. split; [done|]. by destruct ev. }
  destruct Hnext as (p1 & Hp1 & Hid1 & Hev').
  destruct (IH (apply_event ps ev) p1 Hp1) as [(p' & Hp' & Hid') Hall];
    [congruence|done|].
  split; [exists p'; split; [done|congruence]|by constructor].
Qed.

Section RunInvariants.
Context {W : Type}.
Variable create_playlist_on_youtube :
  W → string → string → W * api_result (option string).
Variable add_video_to_playlist :
  W → option string → string → W * api_result ().

Local Abbreviation execute :=
  (run_execution_phase create_playlist_on_youtube add_video_to_playlist).

(** A run changes nothing in the state file but statuses and ids: the
    playlists are the same in number and order, each with its title, its
    description and the video indices of its tracks, in order. *)
Theorem run_keeps_the_plan w (fs : files) ps vs :
  fs !! STATE_FILE = Some (Doc (json_of_state ps)) →
  fs !! VIDEO_INFO_CACHE_FILE = Some (Doc (json_of_cache vs)) →
  ∃ ps', disk (final (execute w fs)) !! STATE_FILE
         = Some (Doc (json_of_state ps'))
    ∧ length ps' = length ps
    ∧ Playlist.playlist_title <$> ps' = Playlist.playlist_title <$> ps
    ∧ Playlist.playlist_description <$> ps' = Playlist.playlist_description <$> ps
    ∧ (λ p, Track.index <$> Playlist.tracks p) <$> ps'
      = (λ p, Track.index <$> Playlist.tracks p) <$> ps.
Proof.
  intros Hs Hc.
  destruct (execute_any create_playlist_on_youtube add_video_to_playlist
              w fs ps vs Hs Hc) as (_ & Hd & _).
  set (evs := trace (final (execute w fs))) in *.
  exists (replay evs ps). rewrite Hd, lookup_insert_eq.
  split; [done|]. split; [apply length_replay|].
  pose proof (skeleton_replay evs ps) as Hsk.
  repeat split.
  - apply (f_equal (fmap (λ x, x.1.1))) in Hsk.
    by rewrite <- !list_fmap_compose in Hsk.
  - apply (f_equal (fmap (λ x, x.1.2))) in Hsk.
    by rewrite <- !list_fmap_compose in Hsk.
  - apply (f_equal (fmap (λ x, x.2))) in Hsk.
    by rewrite <- !list_fmap_compose in Hsk.
Qed.

(** A playlist that has a remote id when a run begins is not created
    again in that run, and has the same id in the state file afterwards. *)
Theorem playlist_with_id_is_not_created_again w (fs : files) ps vs i p :
  fs !! STATE_FILE = Some (Doc (json_of_state ps)) →
  fs !! VIDEO_INFO_CACHE_FILE = Some (Doc (json_of_cache vs)) →
  ps !! i = Some p →
  not_str (Playlist.youtube_playlist_id p) = false →
  let r := execute w fs in
  (∀ title description res,
     CreateCall i title description res ∉ trace (final r))
  ∧ (∀ playlist_id, SetPlaylistId i playlist_id ∉ trace (final r))
  ∧ ∃ ps' p', disk (final r) !! STATE_FILE = Some (Doc (json_of_state ps'))
      ∧ ps' !! i = Some p'
      ∧ Playlist.youtube_playlist_id p' = Playlist.youtube_playlist_id p.
Proof.
  intros Hs Hc Hp Hid r. subst r.
  destruct (execute_any create_playlist_on_youtube add_video_to_playlist
              w fs ps vs Hs Hc) as (Hal & Hd & _).
  set (evs := trace (final (execute w fs))) in *.
  destruct (created_once evs ps i p Hp Hid Hal) as [(p' & Hp' & Hid') Hall].
  rewrite Forall_forall in Hall.
  split; [|split].
  - intros ti de res Hin. by apply (Hall _ Hin).
  - intros o Hin. by apply (Hall _ Hin).
  - exists (replay evs ps), p'. by rewrite Hd, lookup_insert_eq.
Qed.

(** A run that returns has dealt with every playlist: each one is
    COMPLETED in the state it leaves, except those whose creation the
    service refused in this very run.  In particular, when no creation was
    refused, every playlist is COMPLETED, and, if no COMPLETED playlist had
    a PENDING track before, no track is PENDING afterwards. *)
Theorem returned_run_completes w (fs : files) ps vs :
  fs !! STATE_FILE = Some (Doc (json_of_state ps)) →
  fs !! VIDEO_INFO_CACHE_FILE = Some (Doc (json_of_cache vs)) →
  let r := execute w fs in
  how r = Returned →
  (∀ i p', playlist_data (final r) !! i = Some p' →
     Playlist.status p' = COMPLETED
     ∨ ∃ title description e,
         is_quota e = false
         ∧ CreateCall i title description (Raises e) ∈ trace (final r))
  ∧ (Forall (λ ev, refused_creation ev = false) (trace (final r)) →
     Forall (λ p', Playlist.status p' = COMPLETED) (playlist_data (final r))
     ∧ (Forall completed_ok ps →
        Forall (λ p', none_pending (Playlist.tracks p') = true)
          (playlist_data (final r)))).
Proof.
  intros Hs Hc r Hret. subst r.
  destruct (decide (vs = [])) as [->|Hvs].
  { rewrite (execute_empty_cache _ _ w fs ps Hs Hc) in Hret. done. }
  destruct (execute_resumed create_playlist_on_youtube add_video_to_playlist
              w fs ps vs Hs Hc Hvs)
    as (Hd & Hal & _ & _ & [(_ & _ & Hall)|(Hex & _)]); [|congruence].
  set (evs := trace (final (execute w fs))) in *.
  assert (H1 : ∀ i p', playlist_data (final (execute w fs)) !! i = Some p' →
             Playlist.status p' = COMPLETED
             ∨ ∃ title description e,
                 is_quota e = false
                 ∧ CreateCall i title description (Raises e) ∈ evs).
  { intros i p' Hp'. rewrite Hd in Hp'.
    destruct (Hall i) as [(p'' & Hp'' & Hst)|Href].
    - apply lookup_lt_Some in Hp'. by rewrite length_replay in Hp'.
    - left. congruence.
    - by right. }
  split; [done|]. intros Hno.
  assert (H2 : Forall (λ p', Playlist.status p' = COMPLETED)
                 (playlist_data (final (execute w fs)))).
  { apply Forall_lookup. intros i p' Hp'.
    destruct (H1 i p' Hp') as [|(ti & de & e & _ & Hin)]; [done|].
    rewrite Forall_forall in Hno. by specialize (Hno _ Hin). }
  split; [done|]. intros Hok.
  pose proof (completed_ok_replay evs ps Hal Hok) as Hok'. rewrite <- Hd in Hok'.
  apply Forall_lookup. intros i p' Hp'.
  apply (Forall_lookup_1 _ _ _ _ Hok' Hp').
  apply (Forall_lookup_1 _ _ _ _ H2 Hp').
Qed.
End RunInvariants.

Lemma run_keeps_the_plan_witness :
  ∃ ps', disk (final (run_execution_phase (Example.create 3) (Example.add 3)
                        0%nat Example.disk)) !! STATE_FILE
         = Some (Doc (json_of_state ps'))
    ∧ length ps' = length Example.playlists
    ∧ Playlist.playlist_title <$> ps'
      = Playlist.playlist_title <$> Example.playlists
    ∧ Playlist.playlist_description <$> ps'
      = Playlist.playlist_description <$> Example.playlists
    ∧ (λ p, Track.index <$> Playlist.tracks p) <$> ps'
      = (λ p, Track.index <$> Playlist.tracks p) <$> Example.playlists.
Proof.
  apply (run_keeps_the_plan (Example.create 3) (Example.add 3) 0%nat
           Example.disk Example.playlists Example.videos); reflexivity.
Defined.

Lemma playlist_with_id_is_not_created_again_witness :
  let fs := disk (final (run_execution_phase (Example.create 2) (Example.add 2)
                           0%nat Example.disk)) in
  let r := run_execution_phase (Example.create 9) (Example.add 9) 0%nat fs in
  ∃ ps' p', disk (final r) !! STATE_FILE = Some (Doc (json_of_state ps'))
    ∧ ps' !! 0%nat = Some p'
    ∧ Playlist.youtube_playlist_id p' = Some "PL-Rock".
Proof.
  intros fs r.
  destruct (playlist_with_id_is_not_created_again (Example.create 9) (Example.add 9)
              0%nat fs
              (playlist_data (final (run_execution_phase (Example.create 2)
                                       (Example.add 2) 0%nat Example.disk)))
              Example.videos 0
              {| Playlist.playlist_title := "Rock";
                 Playlist.playlist_description := "Loud";
                 Playlist.status := PENDING;
                 Playlist.tracks :=
                   [{| Track.index := 1; Track.status := COMPLETED |};
                    {| Track.index := 2; Track.status := PENDING |}];
                 Playlist.youtube_playlist_id := Some "PL-Rock" |})
    as (_ & _ & ps' & p' & H1 & H2 & H3).
  - reflexivity.
  - reflexivity.
  - reflexivity.
  - reflexivity.
  - exists ps', p'. exact (conj H1 (conj H2 H3)).
Defined.

Lemma returned_run_completes_witness :
  Forall (λ p', Playlist.status p' = COMPLETED)
    (playlist_data (final (run_execution_phase (Example.create 9) (Example.add 9)
                             0%nat Example.disk))).
Proof.
  destruct (returned_run_completes (Example.create 9) (Example.add 9) 0%nat
              Example.disk Example.playlists Example.videos) as [_ H].
  - reflexivity.
  - reflexivity.
  - reflexivity.
  - refine (proj1 (H _)).
    set (l := trace _). vm_compute in l. subst l.
    repeat (constructor; [reflexivity|]). constructor.
Defined.

(** ** The trace of a run, track by track *)






Section TraceShape.
Context {W : Type}.
Variable create_playlist_on_youtube :
  W → string → string → W * api_result (option string).
Variable add_video_to_playlist :
  W → option string → string → W * api_result ().

Local Abbreviation execute :=
  (run_execution_phase create_playlist_on_youtube add_video_to_playlist).

Implicit Types (s : state W).









End TraceShape.


(** ** No call is made twice in a run *)




Lemma calls_once_cons D ev evs :
  call_key ev = None → calls_once D evs → calls_once D (ev :: evs).
Proof.
  intros Hev H key. unfold calls_for. rewrite filter_cons_False by congruence.
  apply H.
Qed.



Section CallsOnce.
Context {W : Type}.
Variable create_playlist_on_youtube :
  W → string → string → W * api_result (option string).
Variable add_video_to_playlist :
  W → option string → string → W * api_result ().

Local Abbreviation execute :=
  (run_execution_phase create_playlist_on_youtube add_video_to_playlist).

Implicit Types (s : state W).







End CallsOnce.

(** ** The order of a run *)

Lemma in_playlist_order_same i evs :
  Forall (λ ev, event_playlist ev = i) evs → in_playlist_order evs.
Proof.
  intros Hall k1 k2 ev1 ev2 _ H1 H2.
  rewrite (Forall_lookup_1 _ _ _ _ Hall H1), (Forall_lookup_1 _ _ _ _ Hall H2).
  done.
Qed.

Lemma in_playlist_order_app evs1 evs2 :
  in_playlist_order evs1 → in_playlist_order evs2 →
  (∀ ev1 ev2, ev1 ∈ evs1 → ev2 ∈ evs2 →
     (event_playlist ev1 ≤ event_playlist ev2)%nat) →
  in_playlist_order (evs1 ++ evs2).
Proof.
  intros H1 H2 H k1 k2 ev1 ev2 Hle Hk1 Hk2.
  apply lookup_app_Some in Hk1 as [Hk1|[Hl1 Hk1]];
    apply lookup_app_Some in Hk2 as [Hk2|[Hl2 Hk2]].
  - by apply (H1 k1 k2).
  - apply H; by eapply list_elem_of_lookup_2.
  - apply lookup_lt_Some in Hk2. lia.
  - apply (H2 (k1 - length evs1)%nat (k2 - length evs1)%nat); [lia|done..].
Qed.

Section Order.
Context {W : Type}.
Variable create_playlist_on_youtube :
  W → string → string → W * api_result (option string).
Variable add_video_to_playlist :
  W → option string → string → W * api_result ().

Local Abbreviation execute :=
  (run_execution_phase create_playlist_on_youtube add_video_to_playlist).

Implicit Types (s : state W).

Lemma playlist_step_about ids i s :
  ∃ evs, trace (flow_state (playlist_step create_playlist_on_youtube
                              add_video_to_playlist ids i s))
         = trace s ++ evs
    ∧ Forall (λ ev, event_playlist ev = i) evs.
Proof.
  destruct (playlist_data s !! i) as [p|] eqn:Hp.
  - destruct (playlist_step_stretch create_playlist_on_youtube
                add_video_to_playlist ids i s p Hp) as (evs & Hst & _).
    destruct Hst as (Ht & _ & _ & Hin & _).
    exists evs. split; [done|]. eapply Forall_impl; [exact Hin|].
    intros ev Hev. simpl in Hev. set_solver.
  - unfold playlist_step. rewrite Hp. exists []. by rewrite app_nil_r.
Qed.

Lemma playlist_loop_order ids n a s :
  ∃ evs, trace (flow_state (playlist_loop create_playlist_on_youtube
                              add_video_to_playlist ids (seq a n) s))
         = trace s ++ evs
    ∧ Forall (λ ev, (a ≤ event_playlist ev)%nat) evs
    ∧ in_playlist_order evs.
Proof.
  revert a s. induction n as [|n IH]; intros a s.
  { exists []. rewrite app_nil_r. repeat split; [done|]. by intros k1 k2 ev1 ev2 _ H. }
  cbn [seq playlist_loop].
  destruct (playlist_step_about ids a s) as (evs1 & Ht1 & H1).
  assert (Hlow : Forall (λ ev, (a ≤ event_playlist ev)%nat) evs1).
  { eapply Forall_impl; [exact H1|]. simpl. lia. }
  destruct (playlist_step _ _ _ _ s) as [s1|code s1]; simpl in Ht1.
  2:{ exists evs1. repeat split; [done..|]. by apply (in_playlist_order_same a). }
  destruct (IH (S a) s1) as (evs2 & Ht2 & Hlow2 & H2).
  exists (evs1 ++ evs2). split; [by rewrite Ht2, Ht1, app_assoc|]. split.
  - apply Forall_app. split; [done|]. eapply Forall_impl; [exact Hlow2|]. simpl. lia.
  - apply in_playlist_order_app; [by apply (in_playlist_order_same a)|done|].
    intros ev1 ev2 Hin1 Hin2.
    rewrite Forall_forall in H1, Hlow2.
    rewrite (H1 _ Hin1). specialize (Hlow2 _ Hin2). simpl in Hlow2. lia.
Qed.

(** X17: whatever the files hold, a run works through the playlists in
    the order of the state file: once something has been done about a
    playlist, nothing more is done about a playlist before it. *)
Theorem run_follows_the_playlist_order w (fs : files) :
  in_playlist_order (trace (final (execute w fs))).
Proof.
  assert (Hnil : in_playlist_order []) by (by intros k1 k2 ev1 ev2 _ H).
  unfold run_execution_phase.
  destruct (load_state STATE_FILE fs) as [d1|]; [|done].
  destruct (load_state VIDEO_INFO_CACHE_FILE fs) as [d2|]; [|done].
  destruct (py_not d1 || py_not d2); [done|].
  destruct (state_of_json d1) as [ps|]; [|done].
  destruct (cache_of_json d2) as [vs|]; [|done].
  set (s0 := {| world := w; disk := fs; playlist_data := ps;
                stdout := [MsgPhase2]; trace := [] |}).
  destruct (playlist_loop_order (index_to_video_id vs) (length ps) 0 s0)
    as (evs & Ht & _ & H).
  destruct (playlist_loop _ _ _ _ s0) as [s1|code s1]; simpl in *; by rewrite Ht.
Qed.

(** X18: when a call of a run runs into the quota, the playlists after
    the one the call is about have not been touched: no entry of the trace
    is about them and the state file holds them as it did before the
    run. *)
Theorem quota_stop_leaves_later_playlists w (fs : files) ps vs ev k :
  fs !! STATE_FILE = Some (Doc (json_of_state ps)) →
  fs !! VIDEO_INFO_CACHE_FILE = Some (Doc (json_of_cache vs)) →
  let r := execute w fs in
  ev ∈ trace (final r) → quota_failure ev = true →
  (event_playlist ev < k)%nat →
  Forall (λ ev', event_playlist ev' ≠ k) (trace (final r))
  ∧ ∃ ps', disk (final r) !! STATE_FILE = Some (Doc (json_of_state ps'))
           ∧ ps' !! k = ps !! k.
Proof.
  intros Hs Hc r Hin Hq Hk. subst r.
  destruct (decide (vs = [])) as [->|Hvs].
  { rewrite (execute_empty_cache _ _ w fs ps Hs Hc) in Hin. simpl in Hin.
    by apply elem_of_nil in Hin. }
  pose proof (run_follows_the_playlist_order w fs) as Hord.
  destruct (execute_resumed create_playlist_on_youtube add_video_to_playlist
              w fs ps vs Hs Hc Hvs) as (_ & _ & Hd & _ & Hhow).
  assert (Hlast : ∃ evs0, trace (final (execute w fs)) = evs0 ++ [ev]).
  { destruct Hhow as [(_ & Hall & _)|(_ & evs0 & ev' & E & Hq' & Hall)].
    - rewrite Forall_forall in Hall. specialize (Hall _ Hin). simpl in Hall. congruence.
    - rewrite E in Hin. apply elem_of_app in Hin as [Hin|Hin].
      + rewrite Forall_forall in Hall. specialize (Hall _ Hin). simpl in Hall.
        congruence.
      + apply list_elem_of_singleton in Hin as ->. by exists evs0. }
  destruct Hlast as (evs0 & E).
  assert (Hall : Forall (λ ev', event_playlist ev' ≠ k) (trace (final (execute w fs)))).
  { apply Forall_lookup. intros k1 ev1 H1.
    assert (H2 : trace (final (execute w fs)) !! length evs0 = Some ev).
    { rewrite E. by rewrite list_lookup_middle. }
    assert (k1 ≤ length evs0)%nat.
    { apply lookup_lt_Some in H1. rewrite E, length_app in H1. simpl in H1. lia. }
    pose proof (Hord k1 (length evs0) ev1 ev H H1 H2). lia. }
  split; [done|].
  exists (replay (trace (final (execute w fs))) ps).
  split; [by rewrite Hd, lookup_insert_eq|]. by apply replay_other.
Qed.
End Order.

Lemma quota_stop_leaves_later_playlists_witness :
  let r := run_execution_phase (Example.create 2) (Example.add 2) 0%nat
             Example.disk in
  Forall (λ ev', event_playlist ev' ≠ 1%nat) (trace (final r))
  ∧ ∃ ps', disk (final r) !! STATE_FILE = Some (Doc (json_of_state ps'))
           ∧ ps' !! 1%nat = Example.playlists !! 1%nat.
Proof.
  apply (quota_stop_leaves_later_playlists (Example.create 2) (Example.add 2)
           0%nat Example.disk Example.playlists Example.videos
           (InsertCall 0 1 (Some "PL-Rock") "gone" (Raises Example.quota_error)) 1).
  - reflexivity.
  - reflexivity.
  - set (l := trace _). vm_compute in l. subst l. repeat constructor.
  - reflexivity.
  - simpl. lia.
Defined.
